(** * The Field node of the form state core (packages/core/next/models/Field.ts)

    A shallow embedding of the [Field] class: its attributes, its derived
    getters and its mutators, over an explicit world made of the owning
    [Form] and a heap of [Field] objects addressed by reference.  The
    collaborators that [Field.ts] imports (the path model, the Form's value
    store, the validator descriptions, the feedback store) are modelled next
    to it, each under a comment that says where the model comes from. *)

From Stdlib Require Import ZArith String List Bool Lia.
From stdpp Require Import base option list gmap strings pretty.

Open Scope string_scope.

(** ** JavaScript values *)

(** The values a field carries are of TypeScript type [any].  Numbers are
    payload only; no operation of [Field.ts] computes with them. *)
#[warnings="-register-all"]
Inductive jsval : Type :=
| JUndefined
| JNull
| JBool (b : bool)
| JNum (n : Z)
| JStr (s : string)
| JArr (items : list jsval)
| JObj (props : list (string * jsval)).

(** A plain object: its own enumerable keys in insertion order. *)
Abbreviation obj := (list (string * jsval)).

(** [o[k]] for a key that may be absent. *)
Fixpoint obj_get (k : string) (o : obj) : option jsval :=
  match o with
  | [] => None
  | (k', v) :: o' => if String.eqb k k' then Some v else obj_get k o'
  end.

(** [k in o] *)
Definition has_key (k : string) (o : obj) : bool :=
  match obj_get k o with Some _ => true | None => false end.

(** [o[k] = v]: overwrite in place, or add the key at the end. *)
Fixpoint obj_set (k : string) (v : jsval) (o : obj) : obj :=
  match o with
  | [] => [(k, v)]
  | (k', v') :: o' =>
      if String.eqb k k' then (k', v) :: o' else (k', v') :: obj_set k v o'
  end.

(** [Object.assign(target, source)] on two plain objects. *)
Definition obj_assign (target source : obj) : obj :=
  fold_left (fun acc kv => obj_set (fst kv) (snd kv) acc) source target.

(** [arr[i] = v]: JavaScript extends the array, the gap reads undefined. *)
Definition arr_set (i : nat) (v : jsval) (l : list jsval) : list jsval :=
  if Nat.ltb i (length l) then <[i:=v]> l
  else l ++ replicate (i - length l) JUndefined ++ [v].

(** JavaScript truthiness, for [if (x)] and [Array.prototype.some]. *)
Definition truthy (v : jsval) : bool :=
  match v with
  | JUndefined | JNull => false
  | JBool b => b
  | JNum n => negb (Z.eqb n 0)
  | JStr s => negb (String.eqb s "")
  | JArr _ | JObj _ => true
  end.

(** [toJS] of the observable substrate: a deep, detached copy. *)
Fixpoint toJS (v : jsval) : jsval :=
  match v with
  | JArr items => JArr (map toJS items)
  | JObj props => JObj (map (fun kv => (fst kv, toJS (snd kv))) props)
  | _ => v
  end.

(** Modelled from the spec: [isValid] of the shared helpers, which are not
    part of this source tree.  A value is valid when it is present and not
    undefined-equivalent. *)
Definition isValid (v : jsval) : bool :=
  match v with
  | JUndefined | JNull => false
  | _ => true
  end.

(** Modelled from the spec: [isArr] of the shared helpers (a sequence). *)
Definition isArr (v : jsval) : bool :=
  match v with
  | JArr _ => true
  | _ => false
  end.

(** ** The path model *)

(** A path segment is a property name or a numeric index ([isNum]). *)
Inductive Segment : Type :=
| Key (s : string)
| Index (i : nat).

#[global] Instance Segment_eq_dec : EqDecision Segment.
Proof. solve_decision. Defined.

Module FormPath.

(** Modelled from the spec: the path model is an external collaborator
    consumed through [parent()], [toString()], [segments] and
    [existIn(tree, path)].  A path is its ordered list of segments. *)
Definition FormPath : Type := list Segment.

Definition segment_name (s : Segment) : string :=
  match s with
  | Key k => k
  | Index i => pretty i
  end.

Fixpoint join (names : list string) : string :=
  match names with
  | [] => ""
  | [n] => n
  | n :: rest => n ++ "." ++ join rest
  end.

(** The dot-joined identifier; the empty path has the empty identifier. *)
Definition toString (p : FormPath) : string := join (map segment_name p).

(** All segments but the last; the parent of the empty path is empty. *)
Definition parent (p : FormPath) : FormPath := removelast p.

(** The member of [t] that segment [s] addresses, when there is one. *)
Definition child (s : Segment) (t : jsval) : option jsval :=
  match s, t with
  | Key k, JObj o => obj_get k o
  | Index i, JArr l => l !! i
  | _, _ => None
  end.

(** [t] with the member addressed by [s] set to [c]; a node of the wrong
    shape is replaced by a fresh container for the segment. *)
Definition put (s : Segment) (c : jsval) (t : jsval) : jsval :=
  match s with
  | Key k => JObj (obj_set k c (match t with JObj o => o | _ => [] end))
  | Index i => JArr (arr_set i c (match t with JArr l => l | _ => [] end))
  end.

Fixpoint getIn (p : FormPath) (t : jsval) : jsval :=
  match p with
  | [] => t
  | s :: p' =>
      match child s t with
      | Some c => getIn p' c
      | None => JUndefined
      end
  end.

Fixpoint setIn (p : FormPath) (t : jsval) (v : jsval) : jsval :=
  match p with
  | [] => v
  | s :: p' =>
      put s (setIn p' (default JUndefined (child s t)) v) t
  end.

(** The path exists when every segment addresses a member that is there,
    whatever the member's value is. *)
Fixpoint existIn (t : jsval) (p : FormPath) : bool :=
  match p with
  | [] => true
  | s :: p' =>
      match child s t with
      | Some c => existIn c p'
      | None => false
      end
  end.

(** Modelled from the spec: [concat] appends segments to a path.  The
    lookups of [Field.ts] that use it read only the identifier of the
    result. *)
Definition concat (p : FormPath) (segments : list Segment) : FormPath :=
  (p ++ segments)%list.

End FormPath.

Abbreviation FormPath := FormPath.FormPath.

(** ** Enumerations of [Field.ts] and of the lifecycle types *)

Inductive FieldDisplayTypes : Type := none | hidden | visibility.

Inductive FieldPatternTypes : Type :=
| editable
| readOnly
| disabled
| readPretty.

#[global] Instance FieldDisplayTypes_eq_dec : EqDecision FieldDisplayTypes.
Proof. solve_decision. Defined.

#[global] Instance FieldPatternTypes_eq_dec : EqDecision FieldPatternTypes.
Proof. solve_decision. Defined.

(** The members of [LifeCycleTypes] that [Field.ts] notifies. *)
Inductive LifeCycleTypes : Type :=
| ON_FIELD_INIT
| ON_FIELD_MOUNT
| ON_FIELD_UNMOUNT
| ON_FIELD_VALUE_CHANGE
| ON_FIELD_INPUT_CHANGE
| ON_FIELD_INITIAL_VALUE_CHANGE
| ON_FIELD_VALIDATE_START
| ON_FIELD_VALIDATE_END
| ON_FIELD_RESET
| ON_FORM_VALUES_CHANGE
| ON_FORM_INPUT_CHANGE
| ON_FORM_INITIAL_VALUES_CHANGE.

(** A reference to a [Field] object. *)
Abbreviation ref := nat.

(** ** Validator descriptions *)

(** The [Validator] a field holds, by the shapes [setRequired] tells apart:
    a rule-description object ([isObj]), an array of them ([isArr]), or
    neither (the attribute is undefined when the props give no validator). *)
Inductive FieldValidator : Type :=
| NoValidator
| RuleObject (desc : obj)
| RuleArray (descs : list obj).

(** Modelled from the spec: [isObj] of the shared helpers, which are not
    part of this source tree.  It is true of an object-shaped description
    and false of an absent one.  The spec takes it to be false of an
    array-shaped description (the array branches of [setRequired] are
    live); a [typeof] test would make it true.  Its answer on arrays is
    therefore the parameter [array_is_object]. *)
Definition isObjV (array_is_object : bool) (v : FieldValidator) : bool :=
  match v with
  | RuleObject _ => true
  | RuleArray _ => array_is_object
  | NoValidator => false
  end.

Definition isArrV (v : FieldValidator) : bool :=
  match v with RuleArray _ => true | _ => false end.

(** Modelled from the spec: [parseDescriptions] of the validator engine
    gives the sequence of rule-description objects, one per array element
    or a single one for anything else; an absent validator parses to one
    description without keys. *)
Definition parseDescriptions (v : FieldValidator) : list obj :=
  match v with
  | NoValidator => [[]]
  | RuleObject desc => [desc]
  | RuleArray descs => descs
  end.

(** One result of the validation engine. *)
Record ValidateResult : Type := {
  type : string;
  message : string
}.

(** ** Binding slots *)

(** [FieldComponent] and [FieldDecorator]: the array [[]], [[C]] or
    [[C, props]], by its positions 0 and 1; [None] is an absent element. *)
Record FieldSlot : Type := {
  handle : option string;
  slot_props : option obj
}.

Definition empty_slot : FieldSlot := {| handle := None; slot_props := None |}.

(** ** The feedback store *)

Inductive FeedbackType : Type := error | warning | success.

#[global] Instance FeedbackType_eq_dec : EqDecision FeedbackType.
Proof. solve_decision. Defined.

Module Feedback.

Record Entry : Type := {
  type : FeedbackType;
  code : string;
  path : FormPath;
  messages : list string
}.

Definition same_key (a b : Entry) : bool :=
  bool_decide (path a = path b) && String.eqb (code a) (code b).

(** Modelled from the spec: [update] upserts the entry keyed by
    (path, code), replacing its message list. *)
Fixpoint update (e : Entry) (store : list Entry) : list Entry :=
  match store with
  | [] => [e]
  | e' :: store' =>
      if same_key e e' then e :: store' else e' :: update e store'
  end.

(** Modelled from the spec: [find] flattens the messages of the entries
    of a path and type, in order. *)
Definition find (p : FormPath) (t : FeedbackType) (store : list Entry)
  : list string :=
  concat (map messages
    (filter (fun e => path e = p /\ type e = t) store)).

(** Modelled from the spec: [clear] removes all entries at or under a
    path. *)
Definition clear (p : FormPath) (store : list Entry) : list Entry :=
  List.filter (fun e => negb (bool_decide (p `prefix_of` path e))) store.

End Feedback.

(** ** The Form *)

(** What a lifecycle notification carries: the field or the form itself. *)
Inductive Payload : Type :=
| FieldPayload (r : ref)
| FormPayload.

(** The calls a field makes on collaborators whose effect lies outside the
    state core, oldest first.  A hand-over to the validation engine is
    recorded with the value, the validator and the trigger it passes. *)
Inductive Call : Type :=
| Notify (t : LifeCycleTypes) (payload : Payload)
| FeedbackUpdate (e : Feedback.Entry)
| EngineValidate (value : jsval) (validator : FieldValidator)
    (triggerType : option string).

Module Form.

(** Modelled from the spec: [Form.ts] is not part of this source tree.
    The Form owns the field registry (path string to Field), the values
    tree and the initialValues tree, the feedback store, the top-level
    flag [modified] and the lifecycle notifier; [notify] fans an event
    out to subscribers, which this model records and does not run. *)
Record Form : Type := {
  fields : gmap string ref;
  values : jsval;
  initialValues : jsval;
  feedback : list Feedback.Entry;
  modified : bool;
  log : list Call
}.

Definition set_fields (x : gmap string ref) (r : Form) : Form :=
  {| fields := x; values := values r; initialValues := initialValues r;
     feedback := feedback r; modified := modified r; log := log r |}.

Definition set_values (x : jsval) (r : Form) : Form :=
  {| fields := fields r; values := x; initialValues := initialValues r;
     feedback := feedback r; modified := modified r; log := log r |}.

Definition set_initialValues (x : jsval) (r : Form) : Form :=
  {| fields := fields r; values := values r; initialValues := x;
     feedback := feedback r; modified := modified r; log := log r |}.

Definition set_feedback (x : list Feedback.Entry) (r : Form) : Form :=
  {| fields := fields r; values := values r;
     initialValues := initialValues r; feedback := x;
     modified := modified r; log := log r |}.

Definition set_modified (x : bool) (r : Form) : Form :=
  {| fields := fields r; values := values r;
     initialValues := initialValues r; feedback := feedback r;
     modified := x; log := log r |}.

Definition set_log (x : list Call) (r : Form) : Form :=
  {| fields := fields r; values := values r;
     initialValues := initialValues r; feedback := feedback r;
     modified := modified r; log := x |}.

Definition getValuesIn (p : FormPath) (F : Form) : jsval :=
  FormPath.getIn p (values F).

Definition setValuesIn (p : FormPath) (v : jsval) (F : Form) : Form :=
  set_values (FormPath.setIn p (values F) v) F.

Definition getInitialValuesIn (p : FormPath) (F : Form) : jsval :=
  FormPath.getIn p (initialValues F).

Definition setInitialValuesIn (p : FormPath) (v : jsval) (F : Form) : Form :=
  set_initialValues (FormPath.setIn p (initialValues F) v) F.

Definition notify (t : LifeCycleTypes) (payload : Payload) (F : Form) : Form :=
  set_log (log F ++ [Notify t payload]) F.

(** [this.feedback.update(entry)] *)
Definition feedback_update (e : Feedback.Entry) (F : Form) : Form :=
  set_log (log F ++ [FeedbackUpdate e])
    (set_feedback (Feedback.update e (feedback F)) F).

(** The hand-over of a validation run to the external engine. *)
Definition engine_validate (v : jsval) (d : FieldValidator)
    (triggerType : option string) (F : Form) : Form :=
  set_log (log F ++ [EngineValidate v d triggerType]) F.

(** [this.feedback.clear({ path })] *)
Definition feedback_clear (p : FormPath) (F : Form) : Form :=
  set_feedback (Feedback.clear p (feedback F)) F.

End Form.

Abbreviation Form := Form.Form.

(** ** The Field *)

(** [IFieldProps]: an optional key that is absent is [None] (for [value]
    and [initialValue], undefined). *)
Record IFieldProps : Type := {
  props_value : jsval;
  props_initialValue : jsval;
  props_void : option bool;
  props_display : option FieldDisplayTypes;
  props_pattern : option FieldPatternTypes;
  props_validator : FieldValidator;
  props_decorator : option FieldSlot;
  props_component : option FieldSlot
}.

(** The one Form of a world; a field's [form] attribute either refers to it
    or is still unassigned. *)
Inductive FormRef : Type := TheForm.

Module Field.

Record Field : Type := {
  void : bool;
  display : option FieldDisplayTypes;
  pattern : option FieldPatternTypes;
  loading : bool;
  validating : bool;
  modified : bool;
  active : bool;
  visited : bool;
  inputValue : jsval;
  inputValues : list jsval;
  recycledValue : jsval;
  initialized : bool;
  mounted : bool;
  unmounted : bool;
  validator : FieldValidator;
  decorator : FieldSlot;
  component : FieldSlot;
  form : option FormRef;
  path : option FormPath;
  props : IFieldProps
}.

Definition set_void (x : bool) (r : Field) : Field :=
  {| void := x; display := display r; pattern := pattern r;
     loading := loading r; validating := validating r;
     modified := modified r; active := active r; visited := visited r;
     inputValue := inputValue r; inputValues := inputValues r;
     recycledValue := recycledValue r; initialized := initialized r;
     mounted := mounted r; unmounted := unmounted r;
     validator := validator r; decorator := decorator r;
     component := component r; form := form r; path := path r;
     props := props r |}.

Definition set_display (x : option FieldDisplayTypes) (r : Field) : Field :=
  {| void := void r; display := x; pattern := pattern r;
     loading := loading r; validating := validating r;
     modified := modified r; active := active r; visited := visited r;
     inputValue := inputValue r; inputValues := inputValues r;
     recycledValue := recycledValue r; initialized := initialized r;
     mounted := mounted r; unmounted := unmounted r;
     validator := validator r; decorator := decorator r;
     component := component r; form := form r; path := path r;
     props := props r |}.

Definition set_pattern (x : option FieldPatternTypes) (r : Field) : Field :=
  {| void := void r; display := display r; pattern := x;
     loading := loading r; validating := validating r;
     modified := modified r; active := active r; visited := visited r;
     inputValue := inputValue r; inputValues := inputValues r;
     recycledValue := recycledValue r; initialized := initialized r;
     mounted := mounted r; unmounted := unmounted r;
     validator := validator r; decorator := decorator r;
     component := component r; form := form r; path := path r;
     props := props r |}.

Definition set_loading (x : bool) (r : Field) : Field :=
  {| void := void r; display := display r; pattern := pattern r;
     loading := x; validating := validating r; modified := modified r;
     active := active r; visited := visited r; inputValue := inputValue r;
     inputValues := inputValues r; recycledValue := recycledValue r;
     initialized := initialized r; mounted := mounted r;
     unmounted := unmounted r; validator := validator r;
     decorator := decorator r; component := component r; form := form r;
     path := path r; props := props r |}.

Definition set_validating (x : bool) (r : Field) : Field :=
  {| void := void r; display := display r; pattern := pattern r;
     loading := loading r; validating := x; modified := modified r;
     active := active r; visited := visited r; inputValue := inputValue r;
     inputValues := inputValues r; recycledValue := recycledValue r;
     initialized := initialized r; mounted := mounted r;
     unmounted := unmounted r; validator := validator r;
     decorator := decorator r; component := component r; form := form r;
     path := path r; props := props r |}.

Definition set_modified (x : bool) (r : Field) : Field :=
  {| void := void r; display := display r; pattern := pattern r;
     loading := loading r; validating := validating r; modified := x;
     active := active r; visited := visited r; inputValue := inputValue r;
     inputValues := inputValues r; recycledValue := recycledValue r;
     initialized := initialized r; mounted := mounted r;
     unmounted := unmounted r; validator := validator r;
     decorator := decorator r; component := component r; form := form r;
     path := path r; props := props r |}.

Definition set_active (x : bool) (r : Field) : Field :=
  {| void := void r; display := display r; pattern := pattern r;
     loading := loading r; validating := validating r;
     modified := modified r; active := x; visited := visited r;
     inputValue := inputValue r; inputValues := inputValues r;
     recycledValue := recycledValue r; initialized := initialized r;
     mounted := mounted r; unmounted := unmounted r;
     validator := validator r; decorator := decorator r;
     component := component r; form := form r; path := path r;
     props := props r |}.

Definition set_visited (x : bool) (r : Field) : Field :=
  {| void := void r; display := display r; pattern := pattern r;
     loading := loading r; validating := validating r;
     modified := modified r; active := active r; visited := x;
     inputValue := inputValue r; inputValues := inputValues r;
     recycledValue := recycledValue r; initialized := initialized r;
     mounted := mounted r; unmounted := unmounted r;
     validator := validator r; decorator := decorator r;
     component := component r; form := form r; path := path r;
     props := props r |}.

Definition set_inputValue (x : jsval) (r : Field) : Field :=
  {| void := void r; display := display r; pattern := pattern r;
     loading := loading r; validating := validating r;
     modified := modified r; active := active r; visited := visited r;
     inputValue := x; inputValues := inputValues r;
     recycledValue := recycledValue r; initialized := initialized r;
     mounted := mounted r; unmounted := unmounted r;
     validator := validator r; decorator := decorator r;
     component := component r; form := form r; path := path r;
     props := props r |}.

Definition set_inputValues (x : list jsval) (r : Field) : Field :=
  {| void := void r; display := display r; pattern := pattern r;
     loading := loading r; validating := validating r;
     modified := modified r; active := active r; visited := visited r;
     inputValue := inputValue r; inputValues := x;
     recycledValue := recycledValue r; initialized := initialized r;
     mounted := mounted r; unmounted := unmounted r;
     validator := validator r; decorator := decorator r;
     component := component r; form := form r; path := path r;
     props := props r |}.

Definition set_recycledValue (x : jsval) (r : Field) : Field :=
  {| void := void r; display := display r; pattern := pattern r;
     loading := loading r; validating := validating r;
     modified := modified r; active := active r; visited := visited r;
     inputValue := inputValue r; inputValues := inputValues r;
     recycledValue := x; initialized := initialized r;
     mounted := mounted r; unmounted := unmounted r;
     validator := validator r; decorator := decorator r;
     component := component r; form := form r; path := path r;
     props := props r |}.

Definition set_initialized (x : bool) (r : Field) : Field :=
  {| void := void r; display := display r; pattern := pattern r;
     loading := loading r; validating := validating r;
     modified := modified r; active := active r; visited := visited r;
     inputValue := inputValue r; inputValues := inputValues r;
     recycledValue := recycledValue r; initialized := x;
     mounted := mounted r; unmounted := unmounted r;
     validator := validator r; decorator := decorator r;
     component := component r; form := form r; path := path r;
     props := props r |}.

Definition set_mounted (x : bool) (r : Field) : Field :=
  {| void := void r; display := display r; pattern := pattern r;
     loading := loading r; validating := validating r;
     modified := modified r; active := active r; visited := visited r;
     inputValue := inputValue r; inputValues := inputValues r;
     recycledValue := recycledValue r; initialized := initialized r;
     mounted := x; unmounted := unmounted r; validator := validator r;
     decorator := decorator r; component := component r; form := form r;
     path := path r; props := props r |}.

Definition set_unmounted (x : bool) (r : Field) : Field :=
  {| void := void r; display := display r; pattern := pattern r;
     loading := loading r; validating := validating r;
     modified := modified r; active := active r; visited := visited r;
     inputValue := inputValue r; inputValues := inputValues r;
     recycledValue := recycledValue r; initialized := initialized r;
     mounted := mounted r; unmounted := x; validator := validator r;
     decorator := decorator r; component := component r; form := form r;
     path := path r; props := props r |}.

Definition set_validator (x : FieldValidator) (r : Field) : Field :=
  {| void := void r; display := display r; pattern := pattern r;
     loading := loading r; validating := validating r;
     modified := modified r; active := active r; visited := visited r;
     inputValue := inputValue r; inputValues := inputValues r;
     recycledValue := recycledValue r; initialized := initialized r;
     mounted := mounted r; unmounted := unmounted r; validator := x;
     decorator := decorator r; component := component r; form := form r;
     path := path r; props := props r |}.

Definition set_decorator (x : FieldSlot) (r : Field) : Field :=
  {| void := void r; display := display r; pattern := pattern r;
     loading := loading r; validating := validating r;
     modified := modified r; active := active r; visited := visited r;
     inputValue := inputValue r; inputValues := inputValues r;
     recycledValue := recycledValue r; initialized := initialized r;
     mounted := mounted r; unmounted := unmounted r;
     validator := validator r; decorator := x; component := component r;
     form := form r; path := path r; props := props r |}.

Definition set_component (x : FieldSlot) (r : Field) : Field :=
  {| void := void r; display := display r; pattern := pattern r;
     loading := loading r; validating := validating r;
     modified := modified r; active := active r; visited := visited r;
     inputValue := inputValue r; inputValues := inputValues r;
     recycledValue := recycledValue r; initialized := initialized r;
     mounted := mounted r; unmounted := unmounted r;
     validator := validator r; decorator := decorator r; component := x;
     form := form r; path := path r; props := props r |}.

Definition set_form (x : option FormRef) (r : Field) : Field :=
  {| void := void r; display := display r; pattern := pattern r;
     loading := loading r; validating := validating r;
     modified := modified r; active := active r; visited := visited r;
     inputValue := inputValue r; inputValues := inputValues r;
     recycledValue := recycledValue r; initialized := initialized r;
     mounted := mounted r; unmounted := unmounted r;
     validator := validator r; decorator := decorator r;
     component := component r; form := x; path := path r;
     props := props r |}.

Definition set_path (x : option FormPath) (r : Field) : Field :=
  {| void := void r; display := display r; pattern := pattern r;
     loading := loading r; validating := validating r;
     modified := modified r; active := active r; visited := visited r;
     inputValue := inputValue r; inputValues := inputValues r;
     recycledValue := recycledValue r; initialized := initialized r;
     mounted := mounted r; unmounted := unmounted r;
     validator := validator r; decorator := decorator r;
     component := component r; form := form r; path := x;
     props := props r |}.

Definition set_props (x : IFieldProps) (r : Field) : Field :=
  {| void := void r; display := display r; pattern := pattern r;
     loading := loading r; validating := validating r;
     modified := modified r; active := active r; visited := visited r;
     inputValue := inputValue r; inputValues := inputValues r;
     recycledValue := recycledValue r; initialized := initialized r;
     mounted := mounted r; unmounted := unmounted r;
     validator := validator r; decorator := decorator r;
     component := component r; form := form r; path := path r;
     props := x |}.

(** *** The world and the monad of field operations *)

(** The Form and the Field objects that exist; the registry of the Form
    and every [this] refer to fields through the heap, so that a write
    through one reference is seen through the others. *)
Record World : Type := {
  world_form : Form;
  heap : gmap ref Field
}.

(** How a call can fail to return: a JavaScript [TypeError] (a property
    read or a call on undefined), a loop that outlives its fuel, or a
    reference that is not in the heap (which no JavaScript program can
    hold). *)
Inductive fault : Type := TypeError | OutOfFuel | Dangling.

Inductive result (A : Type) : Type :=
| Ok (a : A)
| Err (e : fault).

Arguments Ok {A} a.
Arguments Err {A} e.

(** A call runs from a world to an outcome and the world it leaves: a
    JavaScript exception does not undo the writes made before it. *)
Definition M (A : Type) : Type := World -> result A * World.

Definition ret {A : Type} (a : A) : M A := fun w => (Ok a, w).

Definition bind {A B : Type} (m : M A) (k : A -> M B) : M B :=
  fun w =>
    match m w with
    | (Ok a, w') => k a w'
    | (Err e, w') => (Err e, w')
    end.

Definition throw {A : Type} (e : fault) : M A := fun w => (Err e, w).

Declare Scope field_scope.
Delimit Scope field_scope with field.
Notation "x ← y ; z" := (bind y (fun x => z))
  (at level 20, y at level 100, z at level 200, only parsing) : field_scope.
Notation "y ;; z" := (bind y (fun _ => z))
  (at level 100, z at level 200, only parsing, right associativity)
  : field_scope.
Open Scope field_scope.

(** Read the object behind [this]. *)
Definition this_field (this : ref) : M Field :=
  fun w =>
    match heap w !! this with
    | Some f => (Ok f, w)
    | None => (Err Dangling, w)
    end.

(** Write attributes of the object behind [this]. *)
Definition update_this (this : ref) (g : Field -> Field) : M unit :=
  fun w =>
    match heap w !! this with
    | Some f =>
        (Ok tt, {| world_form := world_form w;
                   heap := <[this := g f]> (heap w) |})
    | None => (Err Dangling, w)
    end.

(** [this.form]: dereferencing it faults while it is unassigned. *)
Definition this_form (this : ref) : M Form :=
  f ← this_field this;
  match form f with
  | Some TheForm => fun w => (Ok (world_form w), w)
  | None => throw TypeError
  end.

(** [this.path], for the calls that address a tree or the registry with
    it; these are modelled for an assigned path and fault otherwise. *)
Definition this_path (this : ref) : M FormPath :=
  f ← this_field this;
  match path f with
  | Some p => ret p
  | None => throw TypeError
  end.

(** A call of a method of [this.form] that updates the Form. *)
Definition form_call (this : ref) (g : Form -> Form) : M unit :=
  _ ← this_form this;
  fun w => (Ok tt, {| world_form := g (world_form w); heap := heap w |}).

(** *** Construction *)

Definition defaultProps : IFieldProps :=
  {| props_value := JUndefined;
     props_initialValue := JUndefined;
     props_void := Some false;
     props_display := None;
     props_pattern := None;
     props_validator := NoValidator;
     props_decorator := Some empty_slot;
     props_component := Some empty_slot |}.

Definition spread_opt {A : Type} (a b : option A) : option A :=
  match b with
  | Some x => Some x
  | None => a
  end.

(** [{ ...a, ...b }] *)
Definition spread (a b : IFieldProps) : IFieldProps :=
  {| props_value :=
       match props_value b with
       | JUndefined => props_value a
       | v => v
       end;
     props_initialValue :=
       match props_initialValue b with
       | JUndefined => props_initialValue a
       | v => v
       end;
     props_void := spread_opt (props_void a) (props_void b);
     props_display := spread_opt (props_display a) (props_display b);
     props_pattern := spread_opt (props_pattern a) (props_pattern b);
     props_validator :=
       match props_validator b with
       | NoValidator => props_validator a
       | v => v
       end;
     props_decorator := spread_opt (props_decorator a) (props_decorator b);
     props_component := spread_opt (props_component a) (props_component b) |}.

(** The attributes [initialize] assigns; [inputValue], [recycledValue],
    [form] and [path] keep what the object had. *)
Definition initialized_from (props0 : IFieldProps) (f : Field) : Field :=
  let props := spread defaultProps props0 in
  {| props := props;
     initialized := false;
     loading := false;
     validating := false;
     modified := false;
     active := false;
     visited := false;
     mounted := false;
     unmounted := false;
     void := default false (props_void props);
     display := props_display props;
     pattern := props_pattern props;
     validator := props_validator props;
     decorator := default empty_slot (props_decorator props);
     component := default empty_slot (props_component props);
     inputValues := [];
     inputValue := inputValue f;
     recycledValue := recycledValue f;
     form := form f;
     path := path f |}.

Definition initialize (props0 : IFieldProps) (this : ref) : M unit :=
  update_this this (initialized_from props0).

(** *** Derived getters *)

(** The loop of [get parent()], entered with the parent of the field's
    path; one unit of fuel per iteration of the [while]. *)
Fixpoint parent_loop (fuel : nat) (registry : gmap string ref)
    (parent : FormPath) : result (option ref) :=
  let identifier := FormPath.toString parent in
  match registry !! identifier with
  | Some _ => Ok (registry !! identifier)
  | None =>
      match fuel with
      | 0 => Err OutOfFuel
      | S fuel' => parent_loop fuel' registry (FormPath.parent parent)
      end
  end.

Definition parent (fuel : nat) (this : ref) : M (option ref) :=
  p ← this_path this;
  F ← this_form this;
  match parent_loop fuel (Form.fields F) (FormPath.parent p) with
  | Ok r => ret r
  | Err e => throw e
  end.

Definition initialValue (this : ref) : M jsval :=
  F ← this_form this;
  p ← this_path this;
  ret (Form.getInitialValuesIn p F).

Definition value (this : ref) : M jsval :=
  F ← this_form this;
  p ← this_path this;
  let value := Form.getValuesIn p F in
  f ← this_field this;
  if modified f then ret value
  else if isValid value then ret value else initialValue this.

(** The loop of [get array()]: the test reads the [value] getter of the
    registered field, and the body returns at the empty identifier. *)
Fixpoint array_loop (fuel : nat) (this : ref) (parent : FormPath)
    : M (option ref) :=
  F ← this_form this;
  let identifier := FormPath.toString parent in
  v ← match Form.fields F !! identifier with
      | Some r => value r
      | None => ret JUndefined
      end;
  if isArr v then ret (Form.fields F !! identifier)
  else
    match fuel with
    | 0 => throw OutOfFuel
    | S fuel' =>
        let parent' := FormPath.parent parent in
        if String.eqb (FormPath.toString parent') "" then ret None
        else array_loop fuel' this parent'
    end.

Definition array (fuel : nat) (this : ref) : M (option ref) :=
  p ← this_path this;
  array_loop fuel this (FormPath.parent p).

Definition errors (this : ref) : M (list string) :=
  F ← this_form this;
  p ← this_path this;
  ret (Feedback.find p error (Form.feedback F)).

Definition warnings (this : ref) : M (list string) :=
  F ← this_form this;
  p ← this_path this;
  ret (Feedback.find p warning (Form.feedback F)).

Definition successes (this : ref) : M (list string) :=
  F ← this_form this;
  p ← this_path this;
  ret (Feedback.find p success (Form.feedback F)).

(** [this.parent?.display] and [this.parent?.pattern] *)
Definition parent_attribute {A : Type} (attribute : Field -> option A)
    (fuel : nat) (this : ref) : M (option A) :=
  r ← parent fuel this;
  match r with
  | Some p => pf ← this_field p; ret (attribute pf)
  | None => ret None
  end.

Definition computedDisplay (fuel : nat) (this : ref)
    : M (option FieldDisplayTypes) :=
  f ← this_field this;
  match display f with
  | Some d => ret (Some d)
  | None => parent_attribute display fuel this
  end.

Definition computedPattern (fuel : nat) (this : ref)
    : M (option FieldPatternTypes) :=
  f ← this_field this;
  match pattern f with
  | Some d => ret (Some d)
  | None => parent_attribute pattern fuel this
  end.

(** [desc.required], read for its truthiness. *)
Definition desc_required (desc : obj) : bool :=
  truthy (default JUndefined (obj_get "required" desc)).

Definition required (this : ref) : M bool :=
  f ← this_field this;
  ret (existsb desc_required (parseDescriptions (validator f))).

(** *** Mutators *)

(** A call of a method of [this.form] that takes [this.path]. *)
Definition path_call (this : ref) (g : FormPath -> Form -> Form) : M unit :=
  _ ← this_form this;
  p ← this_path this;
  form_call this (g p).

Definition setErrors (messages : list string) (this : ref) : M unit :=
  path_call this (fun p =>
    Form.feedback_update
      {| Feedback.type := error; Feedback.code := "EffectError";
         Feedback.path := p; Feedback.messages := messages |}).

Definition setWarnings (messages : list string) (this : ref) : M unit :=
  path_call this (fun p =>
    Form.feedback_update
      {| Feedback.type := warning; Feedback.code := "EffectWarning";
         Feedback.path := p; Feedback.messages := messages |}).

Definition setValidator (v : FieldValidator) (this : ref) : M unit :=
  update_this this (set_validator v).

(** The [map] callback of [setRequired]. *)
Definition toggle_required (required : bool) (desc : obj) : obj :=
  if has_key "required" desc
  then obj_set "required" (JBool required) desc
  else desc.

(** [this.validator['required'] = required].  On an array this sets an own
    property of the array object, which is no element of it: the rule
    descriptions stay as they are, and nothing reads the property. *)
Definition assign_required (required : bool) (v : FieldValidator)
    : FieldValidator :=
  match v with
  | RuleObject desc => RuleObject (obj_set "required" (JBool required) desc)
  | RuleArray descs => RuleArray descs
  | NoValidator => NoValidator
  end.

(** What [setRequired] leaves in [this.validator]. *)
Definition with_required (array_is_object : bool) (required : bool)
    (v : FieldValidator) : FieldValidator :=
  let hasRequired := existsb (has_key "required") (parseDescriptions v) in
  if hasRequired then
    if isObjV array_is_object v then assign_required required v
    else if isArrV v then
      match v with
      | RuleArray descs => RuleArray (map (toggle_required required) descs)
      | _ => v
      end
    else v
  else
    if isObjV array_is_object v then assign_required required v
    else if isArrV v then
      match v with
      | RuleArray descs => RuleArray (descs ++ [[("required", JBool true)]])
      | _ => v
      end
    else v.

Definition setRequired (array_is_object : bool) (required : bool)
    (this : ref) : M unit :=
  update_this this
    (fun f =>
       set_validator
         (with_required array_is_object required (validator f)) f).

(** [setValue(value?)]; a call without argument passes undefined. *)
Definition setValue (value : jsval) (this : ref) : M unit :=
  f ← this_field this;
  if void f then ret tt
  else
    path_call this (fun p => Form.setValuesIn p value);;
    form_call this (Form.notify ON_FIELD_VALUE_CHANGE (FieldPayload this));;
    form_call this (Form.notify ON_FORM_VALUES_CHANGE FormPayload).

Definition setInitialValue (initialValue : jsval) (this : ref) : M unit :=
  f ← this_field this;
  if void f then ret tt
  else
    path_call this (fun p => Form.setInitialValuesIn p initialValue);;
    form_call this
      (Form.notify ON_FIELD_INITIAL_VALUE_CHANGE (FieldPayload this));;
    form_call this (Form.notify ON_FORM_INITIAL_VALUES_CHANGE FormPayload).

Definition setDisplay (type : FieldDisplayTypes) (this : ref) : M unit :=
  match type with
  | visibility =>
      f ← this_field this;
      match display f with
      | Some none =>
          setValue (recycledValue f) this;;
          update_this this (set_recycledValue JNull)
      | _ => ret tt
      end
  | none =>
      v ← value this;
      update_this this (set_recycledValue (toJS v));;
      setValue JUndefined this
  | hidden => ret tt
  end;;
  update_this this (set_display (Some type)).

Definition setPattern (type : FieldPatternTypes) (this : ref) : M unit :=
  update_this this (set_pattern (Some type)).

Definition setLoading (loading : bool) (this : ref) : M unit :=
  update_this this (set_loading loading).

Definition setValidating (validating : bool) (this : ref) : M unit :=
  update_this this (set_validating validating).

(** [slot[0] = component] when given, [slot[1] = props] when given. *)
Definition slot_assign (component : option string) (props : option obj)
    (s : FieldSlot) : FieldSlot :=
  {| handle := spread_opt (handle s) component;
     slot_props := spread_opt (slot_props s) props |}.

Definition setComponent (component : option string) (props : option obj)
    (this : ref) : M unit :=
  update_this this
    (fun f =>
       set_component (slot_assign component props (Field.component f)) f).

Definition setDecorator (component : option string) (props : option obj)
    (this : ref) : M unit :=
  update_this this
    (fun f =>
       set_decorator (slot_assign component props (decorator f)) f).

(** [Object.assign(slot[1], props)]: the target is read from position 1
    and faults when it is undefined; an absent source adds nothing. *)
Definition assign_slot_props (props : option obj) (s : FieldSlot)
    : result FieldSlot :=
  match slot_props s with
  | Some target =>
      Ok {| handle := handle s;
            slot_props := Some (obj_assign target (default [] props)) |}
  | None => Err TypeError
  end.

Definition setComponentProps (props : option obj) (this : ref) : M unit :=
  f ← this_field this;
  match assign_slot_props props (component f) with
  | Ok s => update_this this (set_component s)
  | Err e => throw e
  end.

Definition setDecoratorProps (props : option obj) (this : ref) : M unit :=
  f ← this_field this;
  match assign_slot_props props (decorator f) with
  | Ok s => update_this this (set_decorator s)
  | Err e => throw e
  end.

(** *** Validation *)

(** The object [{ errors, warnings, successes }] that [validate] returns. *)
Record Validated : Type := {
  validated_errors : list string;
  validated_warnings : list string;
  validated_successes : list string
}.

(** The callback of [results.forEach], on the three local arrays. *)
Definition collect (acc : list string * list string * list string)
    (r : ValidateResult) : list string * list string * list string :=
  let '(errors, warnings, successes) := acc in
  let errors :=
    if String.eqb (type r) "error" then (errors ++ [message r])%list
    else errors in
  let warnings :=
    if String.eqb (type r) "warning" then (warnings ++ [message r])%list
    else warnings in
  let warnings :=
    if String.eqb (type r) "success" then (warnings ++ [message r])%list
    else warnings in
  (errors, warnings, successes).

Definition partition_results (results : list ValidateResult)
    : list string * list string * list string :=
  fold_left collect results ([], [], []).

(** [if (messages.length) this.form.feedback.update({...})] *)
Definition update_if_any (t : FeedbackType) (code : string)
    (messages : list string) (this : ref) : M unit :=
  match messages with
  | [] => ret tt
  | _ :: _ =>
      path_call this (fun p =>
        Form.feedback_update
          {| Feedback.type := t; Feedback.code := code;
             Feedback.path := p; Feedback.messages := messages |})
  end.

(** [validate] up to its [await]: the part that runs inside the caller's
    turn and hands the run over to the external engine. *)
Definition validate_begin (triggerType : option string) (this : ref)
    : M unit :=
  setValidating true this;;
  form_call this (Form.notify ON_FIELD_VALIDATE_START (FieldPayload this));;
  v ← value this;
  f ← this_field this;
  form_call this (Form.engine_validate v (validator f) triggerType).

(** [validate] from its [await] on, once the engine has answered with
    [results]. *)
Definition validate_resume (results : list ValidateResult) (this : ref)
    : M Validated :=
  let '(errors, warnings, successes) := partition_results results in
  update_if_any error "ValidateError" errors this;;
  update_if_any warning "ValidateWarning" warnings this;;
  update_if_any success "ValidateSuccess" successes this;;
  setValidating false this;;
  form_call this (Form.notify ON_FIELD_VALIDATE_END (FieldPayload this));;
  ret {| validated_errors := errors;
         validated_warnings := warnings;
         validated_successes := successes |}.

(** An awaited [validate(triggerType)] whose engine answers [results]. *)
Definition validate (triggerType : option string)
    (results : list ValidateResult) (this : ref) : M Validated :=
  validate_begin triggerType this;;
  validate_resume results this.

(** A call of the asynchronous [validate] that is not awaited: the caller
    gets a promise back whatever happens before the [await], and goes on. *)
Definition unawaited (m : M unit) : M unit :=
  fun w => (Ok tt, snd (m w)).

(** *** Lifecycle *)

Definition onInit (this : ref) : M unit :=
  update_this this (set_initialized true);;
  form_call this (Form.notify ON_FIELD_INIT (FieldPayload this));;
  unawaited (validate_begin (Some "onInit") this).

Definition onMount (this : ref) : M unit :=
  update_this this (set_mounted true);;
  update_this this (set_unmounted false);;
  unawaited (validate_begin (Some "onMount") this);;
  form_call this (Form.notify ON_FIELD_MOUNT (FieldPayload this)).

(** [this.computedDisplay === 'none' ||
     this.computedDisplay === 'visibility'] *)
Definition display_none_or_visibility (fuel : nat) (this : ref) : M bool :=
  d ← computedDisplay fuel this;
  if bool_decide (d = Some none) then ret true
  else
    d' ← computedDisplay fuel this;
    ret (bool_decide (d' = Some visibility)).

Definition onUnmount (fuel : nat) (this : ref) : M unit :=
  update_this this (set_mounted false);;
  update_this this (set_unmounted true);;
  unawaited (validate_begin (Some "onUnmount") this);;
  form_call this (Form.notify ON_FIELD_UNMOUNT (FieldPayload this));;
  F ← this_form this;
  p ← this_path this;
  if FormPath.existIn (Form.values F) p then
    b ← display_none_or_visibility fuel this;
    if b then setValue JUndefined this else ret tt
  else
    path_call this (fun p F =>
      Form.set_fields (delete (FormPath.toString p) (Form.fields F)) F).

(** [onInput(...args)] *)
Definition onInput (args : list jsval) (this : ref) : M unit :=
  f ← this_field this;
  if void f then ret tt
  else
    update_this this (set_inputValue (nth 0 args JUndefined));;
    update_this this (set_inputValues args);;
    update_this this (set_modified true);;
    form_call this (Form.set_modified true);;
    _ ← this_form this;
    p ← this_path this;
    v ← value this;
    form_call this (Form.setValuesIn p v);;
    form_call this (Form.notify ON_FIELD_VALUE_CHANGE (FieldPayload this));;
    form_call this (Form.notify ON_FIELD_INPUT_CHANGE (FieldPayload this));;
    form_call this (Form.notify ON_FORM_VALUES_CHANGE FormPayload);;
    form_call this (Form.notify ON_FORM_INPUT_CHANGE FormPayload);;
    unawaited (validate_begin (Some "onInput") this).

Definition onFocus (this : ref) : M unit :=
  update_this this (set_active true);;
  update_this this (set_visited true);;
  unawaited (validate_begin (Some "onFocus") this).

Definition onBlur (this : ref) : M unit :=
  update_this this (set_active false);;
  unawaited (validate_begin (Some "onBlur") this).

(** *** The constructor *)

(** A props object without keys. *)
Definition no_props : IFieldProps :=
  {| props_value := JUndefined;
     props_initialValue := JUndefined;
     props_void := None;
     props_display := None;
     props_pattern := None;
     props_validator := NoValidator;
     props_decorator := None;
     props_component := None |}.

(** The object [new] hands to the constructor: no attribute is assigned
    yet, and the constructor takes the props only, so [form] and [path]
    are still unassigned while it runs. *)
Definition blank : Field :=
  {| void := false; display := None; pattern := None;
     loading := false; validating := false; modified := false;
     active := false; visited := false;
     inputValue := JUndefined; inputValues := [];
     recycledValue := JUndefined;
     initialized := false; mounted := false; unmounted := false;
     validator := NoValidator;
     decorator := empty_slot; component := empty_slot;
     form := None; path := None; props := no_props |}.

Definition allocate (f : Field) : M ref :=
  fun w =>
    let this := fresh (dom (heap w)) in
    (Ok this, {| world_form := world_form w;
                 heap := <[this := f]> (heap w) |}).

(** [new Field(props)]; [makeObservable] declares the tracked attributes
    and actions to the observable substrate and changes none of them. *)
Definition constructor (props0 : IFieldProps) : M ref :=
  this ← allocate blank;
  initialize props0 this;;
  setValue (props_value props0) this;;
  setInitialValue (props_initialValue props0) this;;
  ret this.

(** *** Getters and lookups derived from the path *)

(** [get key()]: the optional chain gives undefined on an unassigned path,
    and so does the index [-1] of an empty segment list. *)
Definition key (this : ref) : M (option Segment) :=
  f ← this_field this;
  ret (match path f with
       | Some p => last p
       | None => None
       end).

(** The loop of [get index()], entered with [i + 1 = n]: the segments are
    scanned from position [n - 1] down to position 0. *)
Fixpoint index_loop (segments : list Segment) (n : nat) : option nat :=
  match n with
  | 0 => None
  | S i =>
      match segments !! i with
      | Some (Index item) => Some item
      | _ => index_loop segments i
      end
  end.

(** [get index()]: on an unassigned path the bound of the loop is NaN and
    the body never runs. *)
Definition index (this : ref) : M (option nat) :=
  f ← this_field this;
  ret (match path f with
       | Some p => index_loop p (length p)
       | None => None
       end).

(** [if (identifier && this.form.fields[identifier]) return
     this.form.fields[identifier]]; the form is read only for an
    identifier that is not empty. *)
Definition registered (identifier : string) (this : ref) : M (option ref) :=
  if String.eqb identifier "" then ret None
  else
    F ← this_form this;
    ret (Form.fields F !! identifier).

(** [getSibling(key)]: an unassigned path gives undefined through the
    optional chain. *)
Definition getSibling (key : string) (this : ref) : M (option ref) :=
  f ← this_field this;
  match path f with
  | Some p =>
      let sibling := FormPath.concat (FormPath.parent p) [Key key] in
      registered (FormPath.toString sibling) this
  | None => ret None
  end.

(** [getArraySibling(index, key?)], for an index that is an array
    position; an absent key appends nothing. *)
Definition getArraySibling (fuel : nat) (index : nat) (key : option Segment)
    (this : ref) : M (option ref) :=
  array ← array fuel this;
  match array with
  | Some a =>
      g ← this_field a;
      match path g with
      | Some pa =>
          let sibling :=
            FormPath.concat (FormPath.concat pa [Index index])
              (option_list key) in
          registered (FormPath.toString sibling) this
      | None => ret None
      end
  | None => ret None
  end.

(** [getChildren(key)]: [children.toString()] is not guarded, so an
    unassigned path faults; the registry is read whatever the identifier
    is. *)
Definition getChildren (key : Segment) (this : ref) : M (option ref) :=
  p ← this_path this;
  let children := FormPath.concat p [key] in
  let identifier := FormPath.toString children in
  F ← this_form this;
  ret (Form.fields F !! identifier).

(** *** Reset *)

(** [IFieldResetOptions]; an absent key, or absent options, is false. *)
Record IFieldResetOptions : Type := {
  forceClear : bool;
  validate_after : bool;
  clearInitialValue : bool
}.

(** The block that [reset] runs inside [runInAction]. *)
Definition reset_action (options : IFieldResetOptions) (this : ref)
    : M unit :=
  update_this this (set_modified false);;
  update_this this (set_visited false);;
  path_call this Form.feedback_clear;;
  (if clearInitialValue options then setInitialValue JUndefined this
   else ret tt);;
  (if forceClear options then
     update_this this (set_inputValue JUndefined);;
     update_this this (set_inputValues []);;
     setValue JUndefined this
   else
     v ← initialValue this;
     setValue v this);;
  form_call this (Form.notify ON_FIELD_RESET (FieldPayload this)).

(** An awaited [reset(options)]; with [validate] set it returns what a
    fresh [validate()] returns, whose engine answers [results], and
    undefined otherwise. *)
Definition reset (options : IFieldResetOptions)
    (results : list ValidateResult) (this : ref) : M (option Validated) :=
  reset_action options this;;
  if validate_after options then
    r ← validate None results this;
    ret (Some r)
  else ret None.

End Field.

(** * Vocabulary of the statements *)

Import Field.

(** [k] steps from a path towards the root. *)
Definition ancestor (k : nat) (p : FormPath) : FormPath :=
  Nat.iter k FormPath.parent p.

(** A field that the Form has bound: both [form] and [path] are assigned. *)
Definition bound (w : World) (this : ref) (f : Field) (p : FormPath) : Prop :=
  heap w !! this = Some f /\ form f = Some TheForm /\ path f = Some p.

(** A field as [initialize] leaves it, once the Form has assigned its
    [form] and [path]. *)
Definition field_at (p : FormPath) (props0 : IFieldProps) : Field :=
  set_path (Some p) (set_form (Some TheForm) (initialized_from props0 blank)).

(** A Form without fields, with empty trees. *)
Definition empty_form : Form :=
  {| Form.fields := ∅;
     Form.values := JObj [];
     Form.initialValues := JObj [];
     Form.feedback := [];
     Form.modified := false;
     Form.log := [] |}.

(** The world of one field, registered under its path string, over trees
    that hold [value] and [initialValue] at its path. *)
Definition single_field_world (p : FormPath) (props0 : IFieldProps)
    (value initialValue : jsval) : World :=
  {| world_form :=
       Form.set_fields {[ FormPath.toString p := 0 ]}
         (Form.set_initialValues
            (FormPath.setIn p (JObj []) initialValue)
            (Form.set_values (FormPath.setIn p (JObj []) value) empty_form));
     heap := {[ 0 := field_at p props0 ]} |}.

(** The scenario field: path [user.name], value "Al", initialValue "Alice". *)
Definition user_name : FormPath := [Key "user"; Key "name"].

Definition props_Al : IFieldProps :=
  {| props_value := JStr "Al";
     props_initialValue := JStr "Alice";
     props_void := None;
     props_display := None;
     props_pattern := None;
     props_validator := NoValidator;
     props_decorator := None;
     props_component := None |}.

Definition world_user_name : World :=
  single_field_world user_name props_Al (JStr "Al") (JStr "Alice").

(** An unmodified field [name] with initialValue "Alice" and no value. *)
Definition props_Alice : IFieldProps :=
  {| props_value := JUndefined;
     props_initialValue := JStr "Alice";
     props_void := None;
     props_display := None;
     props_pattern := None;
     props_validator := NoValidator;
     props_decorator := None;
     props_component := None |}.

Definition world_name : World :=
  {| world_form :=
       Form.set_fields {[ "name" := 0 ]}
         (Form.set_initialValues (JObj [("name", JStr "Alice")]) empty_form);
     heap := {[ 0 := field_at [Key "name"] props_Alice ]} |}.

(** The messages of the results whose type passes [keep], in order. *)
Definition messages_of (keep : string -> bool) (results : list ValidateResult)
    : list string :=
  map message (List.filter (fun r => keep (type r)) results).

Definition is_error (t : string) : bool := String.eqb t "error".

Definition is_warning_or_success (t : string) : bool :=
  String.eqb t "warning" || String.eqb t "success".

(** The same world over another content of the feedback store. *)
Definition with_feedback (store : list Feedback.Entry) (w : World) : World :=
  {| world_form := Form.set_feedback store (world_form w); heap := heap w |}.

(** A call that updates the feedback store under the code [code]. *)
Definition updates_code (code : string) (c : Call) : Prop :=
  match c with
  | FeedbackUpdate e => Feedback.code e = code
  | _ => False
  end.

(** The results of one validation run, for the examples. *)
Definition sample_results : list ValidateResult :=
  [ {| type := "error"; message := "too short" |};
    {| type := "success"; message := "looks fine" |};
    {| type := "warning"; message := "unusual" |} ].

(** A field whose validator is an array of one rule without [required]. *)
Definition props_email : IFieldProps :=
  {| props_value := JUndefined;
     props_initialValue := JUndefined;
     props_void := None;
     props_display := None;
     props_pattern := None;
     props_validator := RuleArray [[("format", JStr "email")]];
     props_decorator := None;
     props_component := None |}.

Definition world_email : World :=
  single_field_world [Key "email"] props_email JUndefined JUndefined.

(** A void field given a value. *)
Definition props_void_x : IFieldProps :=
  {| props_value := JStr "x";
     props_initialValue := JStr "y";
     props_void := Some true;
     props_display := None;
     props_pattern := None;
     props_validator := NoValidator;
     props_decorator := None;
     props_component := None |}.

(** The world before any field exists. *)
Definition empty_world : World :=
  {| world_form := empty_form; heap := ∅ |}.

(** Props that give nothing but a display. *)
Definition props_display_only (d : option FieldDisplayTypes) : IFieldProps :=
  {| props_value := JUndefined;
     props_initialValue := JUndefined;
     props_void := None;
     props_display := d;
     props_pattern := None;
     props_validator := NoValidator;
     props_decorator := None;
     props_component := None |}.

(** Three nested fields [a], [a.b] and [a.b.c]; only [a] has a display. *)
Definition world_abc : World :=
  {| world_form :=
       Form.set_fields {[ "a" := 1; "a.b" := 2; "a.b.c" := 3 ]} empty_form;
     heap :=
       {[ 1 := field_at [Key "a"] (props_display_only (Some none));
          2 := field_at [Key "a"; Key "b"] (props_display_only None);
          3 := field_at [Key "a"; Key "b"; Key "c"]
                 (props_display_only None) ]} |}.

(** What of a field the computed display and pattern depend on. *)
Definition inherited_view (f : Field) :=
  (display f, pattern f, form f, path f).

(** The displays at which [onUnmount] clears the value. *)
Definition clears_on_unmount (d : option FieldDisplayTypes) : bool :=
  bool_decide (d = Some none) || bool_decide (d = Some visibility).

(** A void field [a] with display "none", over a tree that holds "x" at
    its path. *)
Definition props_void_none : IFieldProps :=
  {| props_value := JUndefined;
     props_initialValue := JUndefined;
     props_void := Some true;
     props_display := Some none;
     props_pattern := None;
     props_validator := NoValidator;
     props_decorator := None;
     props_component := None |}.

Definition world_void_a : World :=
  single_field_world [Key "a"] props_void_none (JStr "x") JUndefined.

(** The field [a] with display "none", not void, holding "x". *)
Definition world_hidden_a : World :=
  single_field_world [Key "a"] (props_display_only (Some none))
    (JStr "x") JUndefined.

(** * Vocabulary of the further statements *)

(** The operations of a field, each with its arguments; for the two
    asynchronous ones, with the answer of the engine as well. *)
Inductive Operation : Type :=
| Initialize (props0 : IFieldProps)
| SetErrors (messages : list string)
| SetWarnings (messages : list string)
| SetValidator (v : FieldValidator)
| SetRequired (array_is_object required : bool)
| SetValue (v : jsval)
| SetInitialValue (v : jsval)
| SetDisplay (t : FieldDisplayTypes)
| SetPattern (t : FieldPatternTypes)
| SetLoading (b : bool)
| SetValidating (b : bool)
| SetComponent (c : option string) (props : option obj)
| SetComponentProps (props : option obj)
| SetDecorator (c : option string) (props : option obj)
| SetDecoratorProps (props : option obj)
| OnInit
| OnMount
| OnUnmount (fuel : nat)
| OnInput (args : list jsval)
| OnFocus
| OnBlur
| Validate (triggerType : option string) (results : list ValidateResult)
| Reset (options : IFieldResetOptions) (results : list ValidateResult).

(** Forget what a call returns. *)
Definition ignore {A : Type} (m : M A) : M unit := m;; ret tt.

Definition perform (o : Operation) (this : ref) : M unit :=
  match o with
  | Initialize props0 => initialize props0 this
  | SetErrors messages => setErrors messages this
  | SetWarnings messages => setWarnings messages this
  | SetValidator v => setValidator v this
  | SetRequired array_is_object required =>
      setRequired array_is_object required this
  | SetValue v => setValue v this
  | SetInitialValue v => setInitialValue v this
  | SetDisplay t => setDisplay t this
  | SetPattern t => setPattern t this
  | SetLoading b => setLoading b this
  | SetValidating b => setValidating b this
  | SetComponent c props => setComponent c props this
  | SetComponentProps props => setComponentProps props this
  | SetDecorator c props => setDecorator c props this
  | SetDecoratorProps props => setDecoratorProps props this
  | OnInit => onInit this
  | OnMount => onMount this
  | OnUnmount fuel => onUnmount fuel this
  | OnInput args => onInput args this
  | OnFocus => onFocus this
  | OnBlur => onBlur this
  | Validate triggerType results =>
      ignore (validate triggerType results this)
  | Reset options results => ignore (reset options results this)
  end.

(** The world after a sequence of calls, each on some field; a call that
    faults leaves the world it reached, and the next call goes on there. *)
Definition run (calls : list (ref * Operation)) (w : World) : World :=
  fold_left (fun w c => snd (perform (snd c) (fst c) w)) calls w.

(** A call that keeps the property [P] of worlds and relates the world it
    starts in to the world it leaves by [R], whether it returns or
    faults. *)
Definition maintains {A : Type} (P : World -> Prop)
    (R : World -> World -> Prop) (m : M A) : Prop :=
  forall w, P w -> P (snd (m w)) /\ R w (snd (m w)).

(** A call that only reads. *)
Definition reads {A : Type} (m : M A) : Prop :=
  forall w, snd (m w) = w.

(** The world with the object behind [this] replaced, and the world with
    the Form replaced. *)
Definition with_field (this : ref) (f : Field) (w : World) : World :=
  {| world_form := world_form w; heap := <[this := f]> (heap w) |}.

Definition with_form (F : Form) (w : World) : World :=
  {| world_form := F; heap := heap w |}.

(** Two worlds whose field objects show the same under [view]: the same
    objects exist, and [view] is the same on each. *)
Definition same_view {V : Type} (view : Field -> V) (w w' : World) : Prop :=
  forall r, view <$> heap w' !! r = view <$> heap w !! r.

(** The identity of a field: the Form it belongs to and its path. *)
Definition identity (f : Field) : option FormRef * option FormPath :=
  (form f, path f).

(** Every field but [this] is the same object in both worlds. *)
Definition others_untouched (this : ref) (w w' : World) : Prop :=
  forall r, r <> this -> heap w' !! r = heap w !! r.

Definition same_registry (w w' : World) : Prop :=
  Form.fields (world_form w') = Form.fields (world_form w).

(** Every entry of the registry of [w'] is an entry of that of [w]. *)
Definition registry_shrinks (w w' : World) : Prop :=
  forall k r,
    Form.fields (world_form w') !! k = Some r ->
    Form.fields (world_form w) !! k = Some r.

Definition same_trees (w w' : World) : Prop :=
  Form.values (world_form w') = Form.values (world_form w) /\
  Form.initialValues (world_form w') = Form.initialValues (world_form w).

Definition same_initialValues (w w' : World) : Prop :=
  Form.initialValues (world_form w') = Form.initialValues (world_form w).

(** The Form-level [modified] flag is not lowered. *)
Definition modified_kept (w w' : World) : Prop :=
  Form.modified (world_form w) = true ->
  Form.modified (world_form w') = true.

(** No field is mounted and unmounted at once. *)
Definition mount_exclusive (w : World) : Prop :=
  forall r f, heap w !! r = Some f -> mounted f && unmounted f = false.

(** The field behind [this], if it exists, is void. *)
Definition is_void (this : ref) (w : World) : Prop :=
  forall f, heap w !! this = Some f -> void f = true.

Definition anything (w : World) : Prop := True.

Definition whatever (w w' : World) : Prop := True.

Definition is_key (s : Segment) : Prop :=
  match s with
  | Key _ => True
  | Index _ => False
  end.

(** The operations that can write the values tree, and those that can
    write the initialValues tree. *)
Definition writes_values (o : Operation) : bool :=
  match o with
  | SetValue _ | SetDisplay _ | OnUnmount _ | OnInput _ | Reset _ _ => true
  | _ => false
  end.

Definition writes_initialValues (o : Operation) : bool :=
  match o with
  | SetInitialValue _ => true
  | Reset options _ => clearInitialValue options
  | _ => false
  end.

Definition same_values (w w' : World) : Prop :=
  Form.values (world_form w') = Form.values (world_form w).

Definition is_initialize (o : Operation) : bool :=
  match o with
  | Initialize _ => true
  | _ => false
  end.

(** The number of an index segment. *)
Definition segment_index (s : Segment) : option nat :=
  match s with
  | Index i => Some i
  | Key _ => None
  end.

(** The identifier is that of a registered field whose value is an array,
    and: it is not. *)
Definition array_valued (w : World) (identifier : string) (r : ref) : Prop :=
  Form.fields (world_form w) !! identifier = Some r /\
  exists v, value r w = (Ok v, w) /\ isArr v = true.

Definition not_array_valued (w : World) (identifier : string) : Prop :=
  Form.fields (world_form w) !! identifier = None \/
  exists r v,
    Form.fields (world_form w) !! identifier = Some r /\
    value r w = (Ok v, w) /\ isArr v = false.

(** A call that updates the feedback store. *)
Definition is_feedback_update (c : Call) : Prop :=
  match c with
  | FeedbackUpdate _ => True
  | _ => False
  end.

(** What [validate] returns for the answer [results] of the engine. *)
Definition validated (results : list ValidateResult) : Validated :=
  {| validated_errors := messages_of is_error results;
     validated_warnings := messages_of is_warning_or_success results;
     validated_successes := [] |}.

(** The feedback entries that a validation run with the answer [results]
    writes for the field at [p], in the order it writes them. *)
Definition validate_updates (p : FormPath) (results : list ValidateResult)
    : list Feedback.Entry :=
  (match messages_of is_error results with
   | [] => []
   | _ :: _ =>
       [ {| Feedback.type := error; Feedback.code := "ValidateError";
            Feedback.path := p;
            Feedback.messages := messages_of is_error results |} ]
   end ++
   match messages_of is_warning_or_success results with
   | [] => []
   | _ :: _ =>
       [ {| Feedback.type := warning; Feedback.code := "ValidateWarning";
            Feedback.path := p;
            Feedback.messages :=
              messages_of is_warning_or_success results |} ]
   end)%list.

(** The value the [value] getter reads on a field at [p]. *)
Definition value_of (F : Form) (f : Field) (p : FormPath) : jsval :=
  if modified f then Form.getValuesIn p F
  else if isValid (Form.getValuesIn p F) then Form.getValuesIn p F
  else Form.getInitialValuesIn p F.

(** Two fields [user.name] and [user.age] under one parent path. *)
Definition world_siblings : World :=
  {| world_form :=
       Form.set_fields {[ "user.name" := 1; "user.age" := 2 ]} empty_form;
     heap :=
       {[ 1 := field_at [Key "user"; Key "name"] (props_display_only None);
          2 := field_at [Key "user"; Key "age"]
                 (props_display_only None) ]} |}.

(** The array field [items], holding three values, and the element fields
    [items.1] and [items.2]. *)
Definition world_items : World :=
  {| world_form :=
       Form.set_fields {[ "items" := 1; "items.1" := 2; "items.2" := 3 ]}
         (Form.set_values
            (JObj [("items", JArr [JStr "a"; JStr "b"; JStr "c"])])
            empty_form);
     heap :=
       {[ 1 := field_at [Key "items"] (props_display_only None);
          2 := field_at [Key "items"; Index 1] (props_display_only None);
          3 := field_at [Key "items"; Index 2] (props_display_only None) ]} |}.

(** A field object on which only [initialize] has run. *)
Definition world_unbound : World :=
  {| world_form := empty_form;
     heap := {[ 0 := initialized_from no_props blank ]} |}.

(** Reset options. *)
Definition reset_plain : IFieldResetOptions :=
  {| forceClear := false; validate_after := false;
     clearInitialValue := false |}.

Definition reset_force_validate : IFieldResetOptions :=
  {| forceClear := true; validate_after := true;
     clearInitialValue := false |}.

(** * Properties *)

(** ** The value model and the path model *)

Section ValueFacts.

Lemma obj_get_set (k : string) (v : jsval) (o : obj) :
  obj_get k (obj_set k v o) = Some v.
Proof.
  induction o as [|[k' v'] o IH]; simpl.
  - rewrite String.eqb_refl. reflexivity.
  - destruct (String.eqb k k') eqn:E; simpl; rewrite E;
      [reflexivity | exact IH].
Qed.

Lemma obj_get_set_ne (k k' : string) (v : jsval) (o : obj) :
  k <> k' -> obj_get k' (obj_set k v o) = obj_get k' o.
Proof.
  intros Hne. induction o as [|[k0 v0] o IH]; simpl.
  - destruct (String.eqb k' k) eqn:E; [|reflexivity].
    apply String.eqb_eq in E. congruence.
  - destruct (String.eqb k k0) eqn:E; simpl.
    + apply String.eqb_eq in E. subst k0.
      destruct (String.eqb k' k) eqn:E'; [|reflexivity].
      apply String.eqb_eq in E'. congruence.
    + rewrite IH. reflexivity.
Qed.

Lemma has_key_set (k : string) (v : jsval) (o : obj) :
  has_key k (obj_set k v o) = true.
Proof. unfold has_key. rewrite obj_get_set. reflexivity. Qed.

Lemma arr_set_lookup (i : nat) (v : jsval) (l : list jsval) :
  arr_set i v l !! i = Some v.
Proof.
  unfold arr_set. destruct (Nat.ltb i (length l)) eqn:E.
  - apply Nat.ltb_lt in E. apply list_lookup_insert_eq. exact E.
  - apply Nat.ltb_ge in E.
    rewrite lookup_app_r by exact E.
    rewrite lookup_app_r by (rewrite length_replicate; lia).
    rewrite length_replicate.
    replace (i - length l - (i - length l)) with 0 by lia.
    reflexivity.
Qed.

(** The deep copy is structurally the value it copies. *)
Lemma toJS_id : forall v : jsval, toJS v = v.
Proof.
  fix IH 1. intros [ | | b | n | s | items | props]; simpl; try reflexivity.
  - f_equal. revert items. fix IHl 1.
    intros [|x xs]; simpl; [reflexivity|].
    rewrite (IH x), (IHl xs). reflexivity.
  - f_equal. revert props. fix IHl 1.
    intros [|[k x] xs]; simpl; [reflexivity|].
    rewrite (IH x), (IHl xs). reflexivity.
Qed.

End ValueFacts.

Section PathFacts.

Lemma child_put (s : Segment) (c t : jsval) :
  FormPath.child s (FormPath.put s c t) = Some c.
Proof.
  destruct s as [k|i]; simpl.
  - apply obj_get_set.
  - apply arr_set_lookup.
Qed.

(** Reading a path just written gives the written value. *)
Lemma getIn_setIn (p : FormPath) : forall (t v : jsval),
  FormPath.getIn p (FormPath.setIn p t v) = v.
Proof.
  induction p as [|s p IH]; intros t v; simpl.
  - reflexivity.
  - rewrite child_put. apply IH.
Qed.

Lemma toString_root : FormPath.toString [] = "".
Proof. reflexivity. Qed.

Lemma parent_root : FormPath.parent [] = [].
Proof. reflexivity. Qed.

Lemma parent_length (p : FormPath) :
  length (FormPath.parent p) = pred (length p).
Proof.
  unfold FormPath.parent. induction p as [|s p IH]; [reflexivity|].
  destruct p as [|s' p']; [reflexivity|].
  change (removelast (s :: s' :: p')) with (s :: removelast (s' :: p')).
  simpl length in *. rewrite IH. reflexivity.
Qed.

Lemma ancestor_S (k : nat) (p : FormPath) :
  ancestor (S k) p = ancestor k (FormPath.parent p).
Proof.
  unfold ancestor. induction k as [|k IH]; [reflexivity|].
  simpl in *. rewrite IH. reflexivity.
Qed.

Lemma ancestor_length (k : nat) (p : FormPath) :
  length (ancestor k p) = length p - k.
Proof.
  revert p. induction k as [|k IH]; intros p.
  - simpl. lia.
  - rewrite ancestor_S, IH, parent_length. lia.
Qed.

(** Past the root the walk stays at the root. *)
Lemma ancestor_root (k : nat) (p : FormPath) :
  length p <= k -> ancestor k p = [].
Proof.
  intros Hk. apply length_zero_iff_nil. rewrite ancestor_length. lia.
Qed.

End PathFacts.

(** ** Running field operations *)

(** Unfold the operations down to the heap and the Form, and read the heap
    and the attributes the context knows. *)
Ltac field_unfold :=
  unfold constructor, initialize, allocate,
    onInput, onUnmount, onMount, onInit, onFocus, onBlur,
    display_none_or_visibility, unawaited,
    validate, validate_begin, validate_resume, update_if_any,
    setDisplay, setValue, setInitialValue, setRequired, setValidator,
    setPattern, setLoading, setValidating,
    setComponent, setDecorator, setComponentProps, setDecoratorProps,
    computedDisplay, computedPattern, parent_attribute, required,
    value, initialValue, parent,
    path_call, form_call, this_form, this_path, this_field, update_this,
    bind, ret, throw in *.

Ltac field_read :=
  repeat match goal with
    | H : heap _ !! _ = _ |- _ => rewrite H
    | H : form _ = _ |- _ => rewrite H
    | H : path _ = _ |- _ => rewrite H
    | H : void _ = _ |- _ => rewrite H
    | H : modified _ = _ |- _ => rewrite H
    | H : display _ = _ |- _ => rewrite H
    | H : pattern _ = _ |- _ => rewrite H
    | H : parent_loop _ _ _ = _ |- _ => rewrite H
    | H : FormPath.existIn _ _ = _ |- _ => rewrite H
    end.

Ltac field_exec :=
  field_unfold;
  repeat (progress (simpl; rewrite ?lookup_insert_eq; field_read)).

(** Split on the next read the context does not know, innermost first. *)
Ltac field_case :=
  match goal with
  | |- context [heap ?w !! ?r] => destruct (heap w !! r) eqn:?
  | |- context [form ?f] => destruct (form f) as [[]|] eqn:?
  | |- context [path ?f] => destruct (path f) eqn:?
  | |- context [void ?f] => destruct (void f) eqn:?
  | |- context [modified ?f] => destruct (modified f) eqn:?
  | |- context [if isValid ?v then _ else _] => destruct (isValid v) eqn:?
  end.

Ltac unbind H :=
  let Hh := fresh "Hheap" in
  let Hf := fresh "Hform" in
  let Hp := fresh "Hpath" in
  destruct H as (Hh & Hf & Hp).

(** ** The parent walk *)

Section ParentWalk.

Variable registry : gmap string ref.

(** The loop leaves only through a registered identifier: it has no exit
    that returns undefined. *)
Lemma parent_loop_registered (fuel : nat) :
  forall (q : FormPath) (r : option ref),
  parent_loop fuel registry q = Ok r -> exists x, r = Some x.
Proof.
  induction fuel as [|fuel IH]; intros q r; simpl;
    destruct (registry !! FormPath.toString q) eqn:E.
  - intros [= <-]. eauto.
  - discriminate.
  - intros [= <-]. eauto.
  - apply IH.
Qed.

(** With the nearest registered identifier [k] steps up from [q], the
    loop returns it as soon as the fuel covers the [k] iterations. *)
Lemma parent_loop_finds (k : nat) :
  forall (fuel : nat) (q : FormPath) (x : ref),
  registry !! FormPath.toString (ancestor k q) = Some x ->
  (forall j, j < k -> registry !! FormPath.toString (ancestor j q) = None) ->
  k <= fuel ->
  parent_loop fuel registry q = Ok (Some x).
Proof.
  induction k as [|k IH]; intros fuel q x Hk Hbelow Hfuel.
  - simpl in Hk. destruct fuel; simpl; rewrite Hk; reflexivity.
  - destruct fuel as [|fuel]; [lia|]. simpl.
    pose proof (Hbelow 0 ltac:(lia)) as H0. simpl in H0. rewrite H0.
    apply IH.
    + rewrite <- ancestor_S. exact Hk.
    + intros j Hj. rewrite <- ancestor_S. apply Hbelow. lia.
    + lia.
Qed.

(** With no identifier registered on the way up, the root included, the
    loop never leaves: every amount of fuel is used up. *)
Lemma parent_loop_diverges (fuel : nat) : forall q : FormPath,
  (forall j, registry !! FormPath.toString (ancestor j q) = None) ->
  parent_loop fuel registry q = Err OutOfFuel.
Proof.
  induction fuel as [|fuel IH]; intros q Hnone;
    pose proof (Hnone 0) as H0; simpl in H0; simpl; rewrite H0;
    [reflexivity|].
  apply IH. intros j. rewrite <- ancestor_S. apply Hnone.
Qed.

(** It is enough that no prefix of [q] is registered. *)
Lemma unregistered_ancestors (q : FormPath) :
  (forall j, j <= length q ->
     registry !! FormPath.toString (ancestor j q) = None) ->
  forall j, registry !! FormPath.toString (ancestor j q) = None.
Proof.
  intros H j. destruct (le_lt_dec j (length q)) as [Hj|Hj]; [auto|].
  rewrite ancestor_root by lia.
  rewrite <- (ancestor_root (length q) q) by lia. auto.
Qed.

End ParentWalk.

(** [get parent()] never returns undefined, in any world. *)
Lemma parent_never_undefined (fuel : nat) (this : ref) (w w' : World)
    (r : option ref) :
  parent fuel this w = (Ok r, w') -> exists x, r = Some x.
Proof.
  unfold parent, this_path, this_form, this_field, bind, ret, throw.
  destruct (heap w !! this) as [f|] eqn:Hheap; simpl; [|discriminate].
  destruct (path f) as [p|]; simpl; [|discriminate].
  rewrite Hheap. simpl.
  destruct (form f) as [[]|]; simpl; [|discriminate].
  destruct (parent_loop fuel _ _) as [r'|e] eqn:E; intros [= <- <-].
  eapply parent_loop_registered; eassumption.
Qed.

Section ParentGetter.

Variables (w : World) (this : ref) (f : Field) (p : FormPath).
Hypothesis Hbound : bound w this f p.

(** It returns the nearest registered ancestor when there is one. *)
Lemma parent_finds (fuel k : nat) (x : ref) :
  Form.fields (world_form w)
    !! FormPath.toString (ancestor k (FormPath.parent p)) = Some x ->
  (forall j, j < k ->
     Form.fields (world_form w)
       !! FormPath.toString (ancestor j (FormPath.parent p)) = None) ->
  k <= fuel ->
  parent fuel this w = (Ok (Some x), w).
Proof using Hbound.
  intros Hk Hbelow Hfuel. unbind Hbound. field_exec.
  rewrite (parent_loop_finds _ k fuel _ x Hk Hbelow Hfuel). reflexivity.
Qed.

(** Without a registered ancestor it does not return at all. *)
Lemma parent_diverges (fuel : nat) :
  (forall j, j <= length (FormPath.parent p) ->
     Form.fields (world_form w)
       !! FormPath.toString (ancestor j (FormPath.parent p)) = None) ->
  parent fuel this w = (Err OutOfFuel, w).
Proof using Hbound.
  intros Hnone. unbind Hbound. field_exec.
  rewrite parent_loop_diverges; [reflexivity|].
  apply unregistered_ancestors. exact Hnone.
Qed.

End ParentGetter.

(** The getters only read. *)
Lemma value_reads (this : ref) (w : World) : snd (value this w) = w.
Proof.
  field_unfold.
  repeat (simpl; field_read; try reflexivity; field_case).
Qed.

Lemma value_returns_or_faults (this : ref) (w : World) :
  fst (value this w) <> Err OutOfFuel.
Proof.
  field_unfold.
  repeat (simpl; field_read; try discriminate; field_case).
Qed.

(** The sibling getter [array] does return: its loop stops at the empty
    identifier, an exit that the loop of [parent] lacks. *)
Lemma array_loop_returns (this : ref) (fuel : nat) :
  forall (q : FormPath) (w : World),
    length q < fuel -> fst (array_loop fuel this q w) <> Err OutOfFuel.
Proof.
  induction fuel as [|fuel IH]; intros q w Hlen; [lia|].
  simpl. unfold bind.
  destruct (this_form this w) as [[F|e] w1] eqn:EF.
  2:{ simpl. intros [= ->]. revert EF. field_unfold.
      repeat (simpl; field_read; try discriminate; field_case). }
  assert (Hv : forall m : M jsval,
    (forall w0, snd (m w0) = w0) ->
    (forall w0, fst (m w0) <> Err OutOfFuel) ->
    fst (match m w1 with
         | (Ok v, w') =>
             (if isArr v then ret (Form.fields F !! FormPath.toString q)
              else if String.eqb (FormPath.toString (FormPath.parent q)) ""
                   then ret None
                   else array_loop fuel this (FormPath.parent q)) w'
         | (Err e, w') => (Err e, w')
         end) <> Err OutOfFuel).
  { intros m Hm Hm'. pose proof (Hm w1) as Hw1. pose proof (Hm' w1) as Hw2.
    destruct (m w1) as [[v|e] w'] eqn:Em; simpl in Hw1, Hw2; subst w'.
    - destruct (isArr v); [discriminate|].
      destruct (String.eqb _ "") eqn:Eid; [discriminate|].
      apply IH. rewrite parent_length.
      destruct q as [|s q']; [vm_compute in Eid; discriminate Eid|].
      simpl in *. lia.
    - simpl. intros [= ->]. apply Hw2. reflexivity. }
  destruct (Form.fields F !! FormPath.toString q) as [r|].
  - apply Hv; intros w0; [apply value_reads | apply value_returns_or_faults].
  - apply Hv; intros w0; [reflexivity | discriminate].
Qed.

Lemma array_returns (this : ref) (fuel : nat) (w : World) (f : Field)
    (p : FormPath) :
  bound w this f p -> length p < fuel ->
  fst (array fuel this w) <> Err OutOfFuel.
Proof.
  intros Hb Hfuel. unbind Hb.
  assert (Hrun : array fuel this w
                 = array_loop fuel this (FormPath.parent p) w).
  { unfold array. field_exec. reflexivity. }
  rewrite Hrun. apply array_loop_returns. rewrite parent_length. lia.
Qed.

(** ** Validation *)

Lemma collect_fold (results : list ValidateResult) :
  forall errors warnings successes : list string,
    fold_left collect results (errors, warnings, successes) =
    ((errors ++ messages_of is_error results)%list,
     (warnings ++ messages_of is_warning_or_success results)%list,
     successes).
Proof.
  unfold messages_of, is_error, is_warning_or_success.
  induction results as [|r results IH]; intros errors warnings successes.
  - simpl. rewrite !app_nil_r. reflexivity.
  - simpl.
    destruct (String.eqb (type r) "error") eqn:Ee;
      destruct (String.eqb (type r) "warning") eqn:Ew;
      destruct (String.eqb (type r) "success") eqn:Es;
      try (apply String.eqb_eq in Ee, Ew; congruence);
      try (apply String.eqb_eq in Ee, Es; congruence);
      try (apply String.eqb_eq in Ew, Es; congruence);
      simpl; rewrite IH, <- ?app_assoc; reflexivity.
Qed.

(** The three buckets of [validate]: the successes bucket is never filled. *)
Lemma partition_results_spec (results : list ValidateResult) :
  partition_results results =
  (messages_of is_error results,
   messages_of is_warning_or_success results,
   []).
Proof. unfold partition_results. rewrite collect_fold. reflexivity. Qed.

(** The part of [validate] after the [await] touches the feedback store,
    the log and the [validating] flag, and nothing that the [value] getter
    reads. *)
Lemma validate_resume_keeps (w : World) (this : ref) (f : Field)
    (p : FormPath) (results : list ValidateResult) :
  bound w this f p ->
  exists r w',
    validate_resume results this w = (Ok r, w') /\
    Form.values (world_form w') = Form.values (world_form w) /\
    Form.initialValues (world_form w') = Form.initialValues (world_form w) /\
    Form.fields (world_form w') = Form.fields (world_form w) /\
    Form.modified (world_form w') = Form.modified (world_form w) /\
    heap w' = <[this := set_validating false f]> (heap w).
Proof.
  intros Hb. unbind Hb. unfold validate_resume.
  rewrite partition_results_spec.
  destruct (messages_of is_error results) as [|e es];
    destruct (messages_of is_warning_or_success results) as [|m ms];
    field_exec; eexists; eexists; (split; [reflexivity|]); repeat split.
Qed.

Lemma value_after_resume (w : World) (this : ref) (f : Field)
    (p : FormPath) (results : list ValidateResult) :
  bound w this f p ->
  fst (value this (snd (validate_resume results this w)))
    = fst (value this w).
Proof.
  intros Hb.
  destruct (validate_resume_keeps w this f p results Hb)
    as (r & w' & Hrun & Hv & Hi & _ & _ & Hh).
  rewrite Hrun. simpl. unbind Hb. destruct w' as [F' h']. simpl in *.
  subst h'.
  destruct (modified f) eqn:Hmod;
    try destruct (isValid (FormPath.getIn p (Form.values (world_form w))))
          eqn:Hvalid.
  all: repeat (progress (field_exec;
         unfold Form.getValuesIn, Form.getInitialValuesIn;
         rewrite ?Hv, ?Hi, ?Hvalid)).
  all: reflexivity.
Qed.

(** C3.  On a bound field, an awaited [validate] returns, whatever the
    engine answered: [errors] holds the messages of the results of type
    error, [warnings] those of type warning and of type success in their
    order, [successes] is empty.  No call made during the run updates the
    feedback store under the code ValidateSuccess, and the returned lists
    are the same over any content of the store. *)
Theorem C3_validate_partition (w : World) (this : ref) (f : Field)
    (p : FormPath) (triggerType : option string)
    (results : list ValidateResult) :
  bound w this f p ->
  let returned :=
    {| validated_errors := messages_of is_error results;
       validated_warnings := messages_of is_warning_or_success results;
       validated_successes := [] |} in
  (exists w' calls,
     validate triggerType results this w = (Ok returned, w') /\
     Form.log (world_form w') = (Form.log (world_form w) ++ calls)%list /\
     forall c, In c calls -> ~ updates_code "ValidateSuccess" c) /\
  (forall store,
     fst (validate triggerType results this (with_feedback store w))
       = Ok returned).
Proof.
  intros Hb returned.
  assert (Hrun : forall w0, bound w0 this f p ->
    exists w' calls,
      validate triggerType results this w0 = (Ok returned, w') /\
      Form.log (world_form w') = (Form.log (world_form w0) ++ calls)%list /\
      forall c, In c calls -> ~ updates_code "ValidateSuccess" c).
  { clear w Hb. intros w Hb. unbind Hb. subst returned.
    unfold validate, validate_resume.
    rewrite partition_results_spec.
    destruct (messages_of is_error results) as [|e es];
      destruct (messages_of is_warning_or_success results) as [|m ms];
      field_exec; repeat (field_case; field_exec); eexists; eexists;
      (split; [reflexivity|]); simpl; rewrite <- ?app_assoc;
      (split; [reflexivity|]);
      intros c Hin; simpl in Hin;
      repeat (destruct Hin as [<- | Hin]; [simpl; try tauto; discriminate|]);
      destruct Hin. }
  split.
  - apply Hrun. exact Hb.
  - intros store.
    destruct (Hrun (with_feedback store w)) as (w' & calls & Hv & _).
    + unbind Hb. repeat split; assumption.
    + rewrite Hv. reflexivity.
Qed.

(** C3 at the scenario field, on one result of each type. *)
Lemma C3_validate_partition_witness :
  bound world_user_name 0 (field_at user_name props_Al) user_name /\
  fst (validate (Some "onBlur") sample_results 0 world_user_name) =
    Ok {| validated_errors := ["too short"];
          validated_warnings := ["looks fine"; "unusual"];
          validated_successes := [] |}.
Proof.
  assert (Hb : bound world_user_name 0 (field_at user_name props_Al)
                 user_name).
  { repeat split. }
  split; [exact Hb|].
  destruct (C3_validate_partition _ _ _ _ (Some "onBlur") sample_results Hb)
    as [(w' & calls & Hrun & _) _].
  rewrite Hrun. reflexivity.
Defined.

(** ** Input *)

(** What [onInput] does on a bound field that is not void: the raw
    arguments are recorded, both [modified] flags are raised, and the value
    written back to the tree is the one read from it. *)
Lemma onInput_run (w : World) (this : ref) (f : Field) (p : FormPath)
    (args : list jsval) :
  bound w this f p -> void f = false ->
  exists w' f',
    onInput args this w = (Ok tt, w') /\
    bound w' this f' p /\
    inputValue f' = nth 0 args JUndefined /\
    inputValues f' = args /\
    modified f' = true /\
    Form.modified (world_form w') = true /\
    value this w' = (Ok (Form.getValuesIn p (world_form w)), w').
Proof.
  intros Hb Hvoid. unbind Hb.
  eexists. eexists. split; [field_exec; reflexivity|].
  split; [split; [simpl; apply lookup_insert_eq | split; assumption]|].
  repeat (split; [reflexivity|]).
  field_exec. unfold Form.getValuesIn. simpl. rewrite getIn_setIn.
  reflexivity.
Qed.

(** C1 (the code departs from the claim).  The scenario field at path
    [user.name] holds value "Al" and initialValue "Alice".  After
    [onInput("Bob")] the input is recorded in [inputValue] and both
    [modified] flags are true, but [value] is still "Al": the call writes
    [this.value] back, not the argument.  It is still "Al" once the
    validation run that [onInput] started has completed, whatever the
    engine answered. *)
Theorem C1_onInput_leaves_value :
  fst (onInput [JStr "Bob"] 0 world_user_name) = Ok tt /\
  (let w' := snd (onInput [JStr "Bob"] 0 world_user_name) in
   inputValue <$> heap w' !! 0 = Some (JStr "Bob") /\
   modified <$> heap w' !! 0 = Some true /\
   Form.modified (world_form w') = true /\
   fst (value 0 w') = Ok (JStr "Al") /\
   forall results,
     fst (value 0 (snd (validate_resume results 0 w'))) = Ok (JStr "Al")).
Proof.
  split; [reflexivity|]. cbv zeta.
  repeat (split; [vm_compute; reflexivity|]).
  intros results.
  destruct (onInput_run world_user_name 0 (field_at user_name props_Al)
              user_name [JStr "Bob"])
    as (w' & f' & Hrun & Hb' & _ & _ & _ & _ & Hvalue);
    [repeat split | reflexivity |].
  rewrite Hrun. simpl.
  rewrite (value_after_resume w' 0 f' user_name results Hb').
  rewrite Hvalue. reflexivity.
Qed.

(** ** Setting a value *)

(** C2 (counterexample).  On the unmodified, non-void field [name] whose
    initialValue is "Alice", [setValue(undefined)] is followed by a [value]
    of "Alice": neither the value set nor the void case. *)
Lemma C2_counterexample :
  ~ (fst ((setValue JUndefined 0;; value 0) world_name) = Ok JUndefined \/
     (void <$> heap world_name !! 0 = Some true /\
      Form.values (world_form (snd (setValue JUndefined 0 world_name)))
        = Form.values (world_form world_name))).
Proof.
  vm_compute. intros [H | [H _]]; discriminate H.
Qed.

(** C2 (amended).  On a bound field, [setValue(v)] returns.  A void field
    leaves the world as it was.  Otherwise [v] is stored at the path, and
    the [value] getter gives [v] when the field is modified or [v] is
    valid, and the initialValue when the field is unmodified and [v] is
    not valid. *)
Theorem C2_setValue_then_value (w : World) (this : ref) (f : Field)
    (p : FormPath) (v : jsval) :
  bound w this f p ->
  exists w',
    setValue v this w = (Ok tt, w') /\
    if void f then w' = w
    else
      Form.getValuesIn p (world_form w') = v /\
      value this w' =
        (Ok (if modified f || isValid v then v
             else Form.getInitialValuesIn p (world_form w)), w').
Proof.
  intros Hb. unbind Hb. destruct (void f) eqn:Hvoid.
  - exists w. field_exec. split; reflexivity.
  - eexists. split; [field_exec; reflexivity|].
    unfold Form.getValuesIn. simpl. rewrite getIn_setIn.
    split; [reflexivity|].
    field_exec. unfold Form.getValuesIn. simpl. rewrite getIn_setIn.
    destruct (modified f); simpl; [reflexivity|].
    destruct (isValid v); simpl; [reflexivity|].
    field_exec. reflexivity.
Qed.

(** C2 at the field [name]: a valid value set is the value read. *)
Lemma C2_setValue_then_value_witness :
  bound world_name 0 (field_at [Key "name"] props_Alice) [Key "name"] /\
  exists w',
    setValue (JStr "Bob") 0 world_name = (Ok tt, w') /\
    Form.getValuesIn [Key "name"] (world_form w') = JStr "Bob" /\
    value 0 w' = (Ok (JStr "Bob"), w').
Proof.
  assert (Hb : bound world_name 0 (field_at [Key "name"] props_Alice)
                 [Key "name"]).
  { repeat split. }
  split; [exact Hb|].
  destruct (C2_setValue_then_value world_name 0 _ _ (JStr "Bob") Hb)
    as (w' & Hrun & Hval).
  exists w'. split; [exact Hrun|]. exact Hval.
Defined.

(** ** The required rule *)

Section Required.

Lemma desc_required_set (b : bool) (desc : obj) :
  desc_required (obj_set "required" (JBool b) desc) = b.
Proof. unfold desc_required. rewrite obj_get_set. reflexivity. Qed.

Lemma desc_required_has_key (desc : obj) :
  desc_required desc = true -> has_key "required" desc = true.
Proof.
  unfold desc_required, has_key.
  destruct (obj_get "required" desc); [reflexivity | discriminate].
Qed.

(** Toggling every description that has the key. *)
Lemma toggled_required (b : bool) (descs : list obj) :
  existsb desc_required (map (toggle_required b) descs) =
  b && existsb (has_key "required") descs.
Proof.
  induction descs as [|desc descs IH]; simpl.
  - rewrite andb_false_r. reflexivity.
  - rewrite IH. unfold toggle_required.
    destruct (has_key "required" desc) eqn:E; simpl.
    + rewrite desc_required_set. destruct b; reflexivity.
    + destruct (desc_required desc) eqn:E'; [|reflexivity].
      apply desc_required_has_key in E'. congruence.
Qed.

(** On an object-shaped validator [setRequired(b)] makes [required] read
    [b], whatever [isObj] answers on arrays. *)
Lemma with_required_object (array_is_object b : bool) (desc : obj) :
  existsb desc_required
    (parseDescriptions (with_required array_is_object b (RuleObject desc)))
  = b.
Proof.
  unfold with_required. simpl.
  destruct (has_key "required" desc || false);
    simpl; rewrite desc_required_set; apply orb_false_r.
Qed.

(** With [isObj] false of arrays, as the spec has it: [setRequired(true)]
    makes [required] true on an array. *)
Lemma with_required_true_array (descs : list obj) :
  existsb desc_required
    (parseDescriptions (with_required false true (RuleArray descs))) = true.
Proof.
  unfold with_required. simpl.
  destruct (existsb (has_key "required") descs) eqn:E; simpl.
  - rewrite toggled_required, E. reflexivity.
  - rewrite existsb_app. simpl. apply orb_true_r.
Qed.

(** [setRequired(false)] makes it false on an array in which some
    description has the key. *)
Lemma with_required_false_array (descs : list obj) :
  existsb (has_key "required") descs = true ->
  existsb desc_required
    (parseDescriptions (with_required false false (RuleArray descs))) = false.
Proof.
  intros E. unfold with_required. simpl. rewrite E. simpl.
  rewrite toggled_required. reflexivity.
Qed.

(** On an array in which no description has the key, the appended entry
    is [{required: true}] whatever the argument is. *)
Lemma with_required_array_appends (b : bool) (descs : list obj) :
  existsb (has_key "required") descs = false ->
  with_required false b (RuleArray descs) =
    RuleArray (descs ++ [[("required", JBool true)]]) /\
  existsb desc_required
    (parseDescriptions (with_required false b (RuleArray descs))) = true.
Proof.
  intros E. unfold with_required. simpl. rewrite E. simpl.
  split; [reflexivity|]. rewrite existsb_app. simpl. apply orb_true_r.
Qed.

(** With [isObj] true of arrays, as a [typeof] test has it, the array
    branches are dead: [setRequired] leaves the descriptions of an array
    as they are, and so what [required] reads. *)
Lemma with_required_array_typeof (b : bool) (descs : list obj) :
  with_required true b (RuleArray descs) = RuleArray descs.
Proof.
  unfold with_required. simpl.
  destruct (existsb (has_key "required") descs); reflexivity.
Qed.

Lemma setRequired_run (w : World) (this : ref) (f : Field)
    (array_is_object b : bool) :
  heap w !! this = Some f ->
  (setRequired array_is_object b this;; required this) w =
    (Ok (existsb desc_required
           (parseDescriptions
              (with_required array_is_object b (validator f)))),
     {| world_form := world_form w;
        heap :=
          <[this := set_validator
                      (with_required array_is_object b (validator f)) f]>
            (heap w) |}).
Proof. intros Hheap. field_exec. reflexivity. Qed.

End Required.

(** C4 (the code departs from the claim).  The field [email] has the array
    validator [[{format: "email"}]], in which no rule sets [required], so
    [required] reads false.  With [isObj] false of arrays, after
    [setRequired(false)] the getter returns true: the array branch appends
    the literal [{required: true}].  With [isObj] true of arrays, after
    [setRequired(true)] the getter returns false: the flag lands on the
    array object and no rule description changes.  Either way one half of
    the claim fails on this validator. *)
Theorem C4_setRequired_on_array :
  fst (required 0 world_email) = Ok false /\
  fst ((setRequired false false 0;; required 0) world_email) = Ok true /\
  fst ((setRequired true true 0;; required 0) world_email) = Ok false.
Proof. vm_compute. repeat split; reflexivity. Qed.

(** ** Binding slots *)

(** Without the [component] and [decorator] keys in the props, the static
    defaults give both attributes the empty slot. *)
Lemma default_slots (props0 : IFieldProps) (f : Field) :
  props_component props0 = None -> props_decorator props0 = None ->
  component (initialized_from props0 f) = empty_slot /\
  decorator (initialized_from props0 f) = empty_slot.
Proof. intros Hc Hd. simpl. rewrite Hc, Hd. split; reflexivity. Qed.

(** The props variants succeed exactly on a slot whose position 1 holds an
    object, into which the source is merged. *)
Lemma assign_slot_props_ok (props : option obj) (s s' : FieldSlot) :
  assign_slot_props props s = Ok s' <->
  exists target,
    slot_props s = Some target /\
    s' = {| handle := handle s;
            slot_props := Some (obj_assign target (default [] props)) |}.
Proof.
  unfold assign_slot_props. destruct (slot_props s) as [target|]; split.
  - intros [= <-]. eauto.
  - intros (t & [= <-] & ->). reflexivity.
  - discriminate.
  - intros (t & Ht & _). discriminate.
Qed.

(** C10.  A field whose [component] and [decorator] are the slots that the
    props without these keys give has no element at position 1 of either;
    [setComponentProps] and [setDecoratorProps] then fault with a
    TypeError, whatever the props are, and leave the world as it was.
    Whenever [setComponentProps] or [setDecoratorProps] returns, position 1
    of the slot held an object, and the slot now holds the merge. *)
Theorem C10_slot_props_on_default_slots (w : World) (this : ref) (f : Field)
    (props0 : IFieldProps) (props : option obj) :
  heap w !! this = Some f ->
  props_component props0 = None -> props_decorator props0 = None ->
  component f = component (initialized_from props0 blank) ->
  decorator f = decorator (initialized_from props0 blank) ->
  (slot_props (component f) = None /\ slot_props (decorator f) = None) /\
  setComponentProps props this w = (Err TypeError, w) /\
  setDecoratorProps props this w = (Err TypeError, w) /\
  (forall (w0 w' : World) (g : Field),
     heap w0 !! this = Some g ->
     setComponentProps props this w0 = (Ok tt, w') ->
     exists target,
       slot_props (component g) = Some target /\
       (component <$> heap w' !! this) =
         Some {| handle := handle (component g);
                 slot_props :=
                   Some (obj_assign target (default [] props)) |}) /\
  (forall (w0 w' : World) (g : Field),
     heap w0 !! this = Some g ->
     setDecoratorProps props this w0 = (Ok tt, w') ->
     exists target,
       slot_props (decorator g) = Some target /\
       (decorator <$> heap w' !! this) =
         Some {| handle := handle (decorator g);
                 slot_props := Some (obj_assign target (default [] props)) |}).
Proof.
  intros Hheap Hc Hd Hcf Hdf.
  destruct (default_slots props0 blank Hc Hd) as [Ec Ed].
  rewrite Ec in Hcf. rewrite Ed in Hdf.
  split; [rewrite Hcf, Hdf; split; reflexivity|].
  split; [field_exec; rewrite Hcf; reflexivity|].
  split; [field_exec; rewrite Hdf; reflexivity|].
  split.
  - intros w0 w' g Hg. field_exec.
    destruct (assign_slot_props props (component g)) as [s|e] eqn:E;
      simpl; [|discriminate].
    rewrite Hg. intros [= <-]. simpl. rewrite lookup_insert_eq. simpl.
    apply assign_slot_props_ok in E. destruct E as (target & Ht & ->).
    exists target. split; [exact Ht | reflexivity].
  - intros w0 w' g Hg. field_exec.
    destruct (assign_slot_props props (decorator g)) as [s|e] eqn:E;
      simpl; [|discriminate].
    rewrite Hg. intros [= <-]. simpl. rewrite lookup_insert_eq. simpl.
    apply assign_slot_props_ok in E. destruct E as (target & Ht & ->).
    exists target. split; [exact Ht | reflexivity].
Qed.

(** C10 at the scenario field, whose slots are the default ones. *)
Lemma C10_slot_props_on_default_slots_witness :
  heap world_user_name !! 0 = Some (field_at user_name props_Al) /\
  setComponentProps (Some [("size", JStr "large")]) 0 world_user_name
    = (Err TypeError, world_user_name) /\
  setDecoratorProps (Some [("size", JStr "large")]) 0 world_user_name
    = (Err TypeError, world_user_name).
Proof.
  split; [reflexivity|].
  destruct (C10_slot_props_on_default_slots world_user_name 0
              (field_at user_name props_Al) props_Al
              (Some [("size", JStr "large")])
              eq_refl eq_refl eq_refl eq_refl eq_refl)
    as (_ & Hc & Hd & _).
  split; [exact Hc | exact Hd].
Defined.

(** Once [setComponent] has put props at position 1, the merge is stored. *)
Lemma setComponentProps_after_setComponent (w : World) (this : ref)
    (f : Field) (c : option string) (target source : obj) :
  heap w !! this = Some f ->
  exists w',
    (setComponent c (Some target) this;;
     setComponentProps (Some source) this) w = (Ok tt, w') /\
    (slot_props <$> (component <$> heap w' !! this)) =
      Some (Some (obj_assign target source)).
Proof.
  intros Hheap. eexists. split; [field_exec; reflexivity|].
  simpl. rewrite lookup_insert_eq. reflexivity.
Qed.

(** ** Construction *)

(** [initialize] clears the eight flags and the input buffer. *)
Lemma initialize_flags (props0 : IFieldProps) (f : Field) :
  let g := initialized_from props0 f in
  initialized g = false /\ loading g = false /\ validating g = false /\
  modified g = false /\ active g = false /\ visited g = false /\
  mounted g = false /\ unmounted g = false /\ inputValues g = [].
Proof. repeat split. Qed.

Lemma fresh_unused (w : World) : heap w !! fresh (dom (heap w)) = None.
Proof. apply not_elem_of_dom. apply is_fresh. Qed.

(** While the constructor runs, [form] is unassigned: the first setter of
    a field that is not void faults on [this.form]. *)
Lemma constructor_faults_unbound (props0 : IFieldProps) (w : World) :
  props_void props0 <> Some true ->
  fst (constructor props0 w) = Err TypeError.
Proof.
  intros Hvoid.
  destruct (props_void props0) as [[|]|] eqn:E; [congruence| |];
    field_exec; rewrite E; field_exec; reflexivity.
Qed.

(** C5 (counterexample).  Constructing a field from props with
    [void: true], [value: "x"] and [initialValue: "y"] in the empty world
    completes, and neither tree holds the given value at any path. *)
Lemma C5_counterexample :
  fst (constructor props_void_x empty_world) = Ok 0 /\
  (let w' := snd (constructor props_void_x empty_world) in
   ~ (exists p, Form.getValuesIn p (world_form w') = JStr "x") /\
   ~ (exists p, Form.getInitialValuesIn p (world_form w') = JStr "y")).
Proof.
  split; [vm_compute; reflexivity|].
  assert (Hempty : forall p v, FormPath.getIn p (JObj []) = JStr v -> False).
  { intros [|[k|i] p] v; simpl; discriminate. }
  split; intros [p Hp]; vm_compute in Hp; eapply Hempty; exact Hp.
Qed.

(** C5 (amended).  [initialize] sets the eight boolean flags to false and
    [inputValues] to the empty list.  From props with [void: true] the
    constructor completes and leaves the Form, both trees included, as it
    was; the new object is the initialized one.  On a bound field that is
    not void, the two setters the constructor calls store the value and
    the initialValue of the props at the field's path. *)
Theorem C5_construction (props0 : IFieldProps) :
  (forall f : Field,
     let g := initialized_from props0 f in
     initialized g = false /\ loading g = false /\ validating g = false /\
     modified g = false /\ active g = false /\ visited g = false /\
     mounted g = false /\ unmounted g = false /\ inputValues g = []) /\
  (forall w : World,
     props_void props0 = Some true ->
     exists this,
       heap w !! this = None /\
       constructor props0 w =
         (Ok this,
          {| world_form := world_form w;
             heap := <[this := initialized_from props0 blank]> (heap w) |})) /\
  (forall (w : World) (this : ref) (f : Field) (p : FormPath),
     bound w this f p -> void f = false ->
     exists w',
       (setValue (props_value props0) this;;
        setInitialValue (props_initialValue props0) this) w = (Ok tt, w') /\
       heap w' = heap w /\
       Form.getValuesIn p (world_form w') = props_value props0 /\
       Form.getInitialValuesIn p (world_form w') = props_initialValue props0).
Proof.
  split; [intros f; apply initialize_flags|]. split.
  - intros w Hvoid. exists (fresh (dom (heap w))).
    split; [apply fresh_unused|].
    repeat (progress (field_exec; rewrite ?Hvoid, ?insert_insert_eq)).
    reflexivity.
  - intros w this f p Hb Hvoid. unbind Hb.
    eexists. split; [field_exec; reflexivity|]. simpl.
    split; [reflexivity|].
    unfold Form.getValuesIn, Form.getInitialValuesIn. simpl.
    rewrite !getIn_setIn. split; reflexivity.
Qed.

(** C5 at a void construction in the empty world and at the setters of
    the scenario field. *)
Lemma C5_construction_witness :
  props_void props_void_x = Some true /\
  (exists this,
     heap empty_world !! this = None /\
     constructor props_void_x empty_world =
       (Ok this,
        {| world_form := empty_form;
           heap := <[this := initialized_from props_void_x blank]> ∅ |})) /\
  bound world_user_name 0 (field_at user_name props_Al) user_name /\
  void (field_at user_name props_Al) = false /\
  (exists w',
     (setValue (JStr "x") 0;; setInitialValue (JStr "y") 0) world_user_name
       = (Ok tt, w') /\
     Form.getValuesIn user_name (world_form w') = JStr "x" /\
     Form.getInitialValuesIn user_name (world_form w') = JStr "y").
Proof.
  destruct (C5_construction props_void_x) as (_ & Hvoid & Hset).
  split; [reflexivity|].
  split; [exact (Hvoid empty_world eq_refl)|].
  assert (Hb : bound world_user_name 0 (field_at user_name props_Al)
                 user_name).
  { repeat split. }
  split; [exact Hb|]. split; [reflexivity|].
  destruct (Hset world_user_name 0 _ _ Hb eq_refl) as (w' & Hrun & _ & Hv & Hi).
  exists w'. split; [exact Hrun|]. split; [exact Hv | exact Hi].
Defined.

(** ** The parent getter *)

(** C6 (the code departs from the claim).  The scenario field [user.name]
    is the only registered field: no ancestor of its path is registered.
    Reading [parent] does not return undefined; it does not return at all,
    whatever the fuel: past the root the walk stays at the empty identifier
    and the loop has no exit there.  In no world does a read of [parent]
    return undefined. *)
Theorem C6_parent_without_ancestor (fuel : nat) :
  parent fuel 0 world_user_name = (Err OutOfFuel, world_user_name) /\
  (forall (this : ref) (w w' : World),
     parent fuel this w <> (Ok None, w')).
Proof.
  split.
  - apply (parent_diverges world_user_name 0 (field_at user_name props_Al)
             user_name).
    + repeat split.
    + intros [|[|j]] Hj; [reflexivity | reflexivity | simpl in Hj; lia].
  - intros this w w' H.
    destruct (parent_never_undefined fuel this w w' None H) as [x Hx].
    discriminate Hx.
Qed.

(** ** Computed display and pattern *)

(** C7 (counterexample).  In the world of [a], [a.b] and [a.b.c], where
    only [a] has a display, the parent of [a.b.c] is [a.b], whose computed
    display is "none", inherited from [a]; the computed display of [a.b.c]
    is undefined all the same. *)
Lemma C7_counterexample :
  fst (parent 3 3 world_abc) = Ok (Some 2) /\
  fst (computedDisplay 3 2 world_abc) = Ok (Some none) /\
  fst (computedDisplay 3 3 world_abc) = Ok None /\
  fst (computedDisplay 3 3 world_abc) <> fst (computedDisplay 3 2 world_abc).
Proof. vm_compute. repeat split; try reflexivity. discriminate. Qed.

(** C7 (amended).  On a bound field, an own display (resp. pattern) is the
    computed one.  Without an own display (resp. pattern), and with the
    nearest registered ancestor [k] steps up from the parent path, the
    computed display (resp. pattern) is the own [display] (resp. [pattern])
    attribute of that one ancestor, undefined when that ancestor has none,
    whatever further ancestors have. *)
Theorem C7_computed_from_nearest_ancestor (w : World) (this : ref)
    (f : Field) (p : FormPath) (fuel : nat) :
  bound w this f p ->
  (forall d, display f = Some d ->
     computedDisplay fuel this w = (Ok (Some d), w)) /\
  (forall d, pattern f = Some d ->
     computedPattern fuel this w = (Ok (Some d), w)) /\
  (forall (k : nat) (x : ref) (pf : Field),
     Form.fields (world_form w)
       !! FormPath.toString (ancestor k (FormPath.parent p)) = Some x ->
     (forall j, j < k ->
        Form.fields (world_form w)
          !! FormPath.toString (ancestor j (FormPath.parent p)) = None) ->
     k <= fuel ->
     heap w !! x = Some pf ->
     (display f = None ->
        computedDisplay fuel this w = (Ok (display pf), w)) /\
     (pattern f = None ->
        computedPattern fuel this w = (Ok (pattern pf), w))).
Proof.
  intros Hb. pose proof Hb as Hb'. unbind Hb'.
  split; [intros d Hd; field_exec; reflexivity|].
  split; [intros d Hd; field_exec; reflexivity|].
  intros k x pf Hk Hbelow Hfuel Hx.
  pose proof (parent_finds w this f p Hb fuel k x Hk Hbelow Hfuel) as Hparent.
  split; intros Hnone.
  - unfold computedDisplay, parent_attribute, bind at 1, this_field.
    rewrite Hheap, Hnone. unfold bind at 1. rewrite Hparent.
    unfold bind, this_field, ret. rewrite Hx. reflexivity.
  - unfold computedPattern, parent_attribute, bind at 1, this_field.
    rewrite Hheap, Hnone. unfold bind at 1. rewrite Hparent.
    unfold bind, this_field, ret. rewrite Hx. reflexivity.
Qed.

(** C7 in the world of [a], [a.b] and [a.b.c]. *)
Lemma C7_computed_from_nearest_ancestor_witness :
  bound world_abc 3 (field_at [Key "a"; Key "b"; Key "c"]
                       (props_display_only None))
    [Key "a"; Key "b"; Key "c"] /\
  bound world_abc 1 (field_at [Key "a"] (props_display_only (Some none)))
    [Key "a"] /\
  computedDisplay 3 3 world_abc = (Ok None, world_abc) /\
  computedDisplay 3 1 world_abc = (Ok (Some none), world_abc).
Proof.
  assert (Hb3 : bound world_abc 3
                  (field_at [Key "a"; Key "b"; Key "c"]
                     (props_display_only None))
                  [Key "a"; Key "b"; Key "c"]).
  { repeat split. }
  assert (Hb1 : bound world_abc 1
                  (field_at [Key "a"] (props_display_only (Some none)))
                  [Key "a"]).
  { repeat split. }
  split; [exact Hb3|]. split; [exact Hb1|]. split.
  - destruct (C7_computed_from_nearest_ancestor _ _ _ _ 3 Hb3)
      as (_ & _ & Hinherit).
    destruct (Hinherit 0 2 (field_at [Key "a"; Key "b"]
                              (props_display_only None)))
      as [Hd _]; [reflexivity | intros j Hj; lia | lia | reflexivity |].
    exact (Hd eq_refl).
  - destruct (C7_computed_from_nearest_ancestor _ _ _ _ 3 Hb1)
      as (Hown & _).
    exact (Hown none eq_refl).
Defined.

(** ** Display transitions *)

(** C8.  On a bound field, setting the display to "none" and then to
    "visibility" returns both times; the [value] read afterwards is the
    value read just before "none" was set, of which the stash held a
    structurally equal copy, and the stash is cleared (null) after the
    restore, with the display at "visibility". *)
Theorem C8_display_round_trip (w : World) (this : ref) (f : Field)
    (p : FormPath) :
  bound w this f p ->
  exists (v : jsval) (w1 w2 : World) (f1 f2 : Field),
    value this w = (Ok v, w) /\
    setDisplay none this w = (Ok tt, w1) /\
    heap w1 !! this = Some f1 /\
    recycledValue f1 = v /\ display f1 = Some none /\
    setDisplay visibility this w1 = (Ok tt, w2) /\
    heap w2 !! this = Some f2 /\
    recycledValue f2 = JNull /\ display f2 = Some visibility /\
    value this w2 = (Ok v, w2).
Proof.
  intros Hb. unbind Hb.
  destruct (void f) eqn:Hvoid;
    destruct (modified f) eqn:Hmod;
    try destruct (isValid (Form.getValuesIn p (world_form w))) eqn:Hvalid.
  all: eexists; eexists; eexists; eexists; eexists.
  all: split; [field_exec; try rewrite Hvalid; field_exec; reflexivity|].
  all: split; [field_exec; try rewrite Hvalid; field_exec; reflexivity|].
  all: simpl; rewrite lookup_insert_eq.
  all: split; [reflexivity|].
  all: split; [simpl; apply toJS_id|].
  all: split; [reflexivity|].
  all: split; [field_exec; reflexivity|].
  all: simpl; rewrite lookup_insert_eq.
  all: split; [reflexivity|].
  all: split; [reflexivity|].
  all: split; [reflexivity|].
  all: repeat (progress (field_exec;
         unfold Form.getValuesIn, Form.getInitialValuesIn in *; simpl;
         rewrite ?getIn_setIn, ?toJS_id, ?Hvalid)); try reflexivity.
  all: destruct (isValid (FormPath.getIn p (Form.initialValues (world_form w))))
         eqn:Hinit.
  all: repeat (progress (field_exec;
         unfold Form.getValuesIn, Form.getInitialValuesIn in *; simpl;
         rewrite ?getIn_setIn, ?toJS_id, ?Hvalid, ?Hinit)); try reflexivity.
Qed.

(** C8 at the scenario field: "Al" comes back. *)
Lemma C8_display_round_trip_witness :
  bound world_user_name 0 (field_at user_name props_Al) user_name /\
  exists w1 w2,
    setDisplay none 0 world_user_name = (Ok tt, w1) /\
    setDisplay visibility 0 w1 = (Ok tt, w2) /\
    value 0 w2 = (Ok (JStr "Al"), w2).
Proof.
  assert (Hb : bound world_user_name 0 (field_at user_name props_Al)
                 user_name).
  { repeat split. }
  split; [exact Hb|].
  destruct (C8_display_round_trip _ _ _ _ Hb)
    as (v & w1 & w2 & f1 & f2 & Hv & H1 & _ & _ & _ & H2 & _ & _ & _ & Hv2).
  exists w1, w2. split; [exact H1|]. split; [exact H2|].
  assert (Hc : value 0 world_user_name = (Ok (JStr "Al"), world_user_name))
    by reflexivity.
  rewrite Hc in Hv. injection Hv as <-. exact Hv2.
Defined.

(** ** Unmounting *)

Lemma computedDisplay_reads (fuel : nat) (this : ref) (w : World) :
  snd (computedDisplay fuel this w) = w.
Proof.
  unfold computedDisplay, parent_attribute, parent,
    this_path, this_form, this_field, bind, ret, throw.
  destruct (heap w !! this) as [f|] eqn:Hf; simpl; [|reflexivity].
  destruct (display f); simpl; [reflexivity|].
  rewrite Hf. simpl.
  destruct (path f); simpl; [|reflexivity]. rewrite Hf. simpl.
  destruct (form f) as [[]|]; simpl; [|reflexivity].
  destruct (parent_loop fuel _ _) as [[x|]|e]; simpl; try reflexivity.
  destruct (heap w !! x); reflexivity.
Qed.

(** The computed display is that of any world with the same registry and
    the same displays, forms and paths. *)
Lemma computedDisplay_stable (fuel : nat) (this : ref) (w w1 : World) :
  Form.fields (world_form w1) = Form.fields (world_form w) ->
  (forall r,
     inherited_view <$> heap w1 !! r = inherited_view <$> heap w !! r) ->
  fst (computedDisplay fuel this w1) = fst (computedDisplay fuel this w).
Proof.
  intros Hreg Hview.
  unfold computedDisplay, parent_attribute, parent,
    this_path, this_form, this_field, bind, ret, throw.
  pose proof (Hview this) as Hthis.
  destruct (heap w1 !! this) as [f1|] eqn:Hf1;
    destruct (heap w !! this) as [f|] eqn:Hf;
    try discriminate Hthis; simpl; [|reflexivity].
  injection Hthis as Hd _ Hform Hpath.
  rewrite Hd. destruct (display f); simpl; [reflexivity|].
  rewrite Hf1, Hf. simpl. rewrite Hpath.
  destruct (path f); simpl; [|reflexivity].
  rewrite Hf1, Hf. simpl. rewrite Hform.
  destruct (form f) as [[]|]; simpl; [|reflexivity].
  rewrite Hreg.
  destruct (parent_loop fuel _ _) as [[x|]|e]; simpl; try reflexivity.
  pose proof (Hview x) as Hx.
  destruct (heap w1 !! x) as [g1|]; destruct (heap w !! x) as [g|];
    try discriminate Hx; simpl; [|reflexivity].
  injection Hx as Hdx _ _ _. rewrite Hdx. reflexivity.
Qed.

Lemma computedDisplay_transfer (fuel : nat) (this : ref) (w w1 : World)
    (d : option FieldDisplayTypes) :
  Form.fields (world_form w1) = Form.fields (world_form w) ->
  (forall r,
     inherited_view <$> heap w1 !! r = inherited_view <$> heap w !! r) ->
  computedDisplay fuel this w = (Ok d, w) ->
  computedDisplay fuel this w1 = (Ok d, w1).
Proof.
  intros Hreg Hview Hd.
  pose proof (computedDisplay_stable fuel this w w1 Hreg Hview) as Hfst.
  pose proof (computedDisplay_reads fuel this w1) as Hsnd.
  rewrite Hd in Hfst. simpl in Hfst.
  destruct (computedDisplay fuel this w1) as [r w2]. simpl in *.
  subst. reflexivity.
Qed.

(** Rewriting attributes of [this] that the view does not show. *)
Lemma view_insert (h : gmap ref Field) (this : ref) (f g : Field) :
  h !! this = Some f -> inherited_view g = inherited_view f ->
  forall r, inherited_view <$> <[this := g]> h !! r = inherited_view <$> h !! r.
Proof.
  intros Hf Hview r. destruct (decide (this = r)) as [<-|Hne].
  - rewrite lookup_insert_eq, Hf. simpl. rewrite Hview. reflexivity.
  - rewrite lookup_insert_ne by exact Hne. reflexivity.
Qed.

(** C9 (counterexample).  The void field [a] has display "none" and its
    path exists in the values tree, where it holds "x".  [onUnmount]
    returns, the computed display is "none", and the stored value is still
    "x", a valid value: [setValue] does nothing on a void field. *)
Lemma C9_counterexample :
  FormPath.existIn (Form.values (world_form world_void_a)) [Key "a"] = true /\
  fst (computedDisplay 1 0 world_void_a) = Ok (Some none) /\
  fst (onUnmount 1 0 world_void_a) = Ok tt /\
  (let w' := snd (onUnmount 1 0 world_void_a) in
   Form.getValuesIn [Key "a"] (world_form w') = JStr "x" /\
   isValid (Form.getValuesIn [Key "a"] (world_form w')) = true).
Proof. vm_compute. repeat split; reflexivity. Qed.

(** C9 (amended).  On a bound field [onUnmount] behaves as follows.  When
    the path does not exist in the values tree, it returns, the registry no
    longer has an entry under the path string, and the tree is as it was.
    When the path exists and the computed display reads [d], it returns and
    the registry is kept; the stored value at the path is cleared to
    undefined when [d] is "none" or "visibility" and the field is not void,
    and the tree is as it was otherwise.  In all these cases [mounted] is
    false and [unmounted] is true afterwards. *)
Theorem C9_onUnmount (w : World) (this : ref) (f : Field) (p : FormPath)
    (fuel : nat) :
  bound w this f p ->
  (FormPath.existIn (Form.values (world_form w)) p = false ->
   exists w' f',
     onUnmount fuel this w = (Ok tt, w') /\
     Form.fields (world_form w') !! FormPath.toString p = None /\
     Form.values (world_form w') = Form.values (world_form w) /\
     heap w' !! this = Some f' /\ mounted f' = false /\ unmounted f' = true) /\
  (forall d : option FieldDisplayTypes,
   FormPath.existIn (Form.values (world_form w)) p = true ->
   computedDisplay fuel this w = (Ok d, w) ->
   exists w' f',
     onUnmount fuel this w = (Ok tt, w') /\
     Form.fields (world_form w') = Form.fields (world_form w) /\
     heap w' !! this = Some f' /\ mounted f' = false /\ unmounted f' = true /\
     if clears_on_unmount d && negb (void f)
     then Form.getValuesIn p (world_form w') = JUndefined
     else Form.values (world_form w') = Form.values (world_form w)).
Proof.
  intros Hb. unbind Hb. split.
  - intros Hex.
    destruct (modified f) eqn:Hmod;
      try destruct (isValid (Form.getValuesIn p (world_form w))) eqn:Hvalid.
    all: eexists; eexists.
    all: split;
      [repeat (progress (field_exec;
         unfold Form.getValuesIn, Form.notify, Form.engine_validate in *;
         simpl; rewrite ?Hvalid, ?Hex)); reflexivity|].
    all: simpl; rewrite lookup_delete_eq, lookup_insert_eq.
    all: repeat split.
  - intros d Hex Hd.
    assert (Hstep : forall (g : Field) (F : Form),
      inherited_view g = inherited_view f ->
      Form.fields F = Form.fields (world_form w) ->
      computedDisplay fuel this
        {| world_form := F; heap := <[this := g]> (heap w) |} =
      (Ok d, {| world_form := F; heap := <[this := g]> (heap w) |})).
    { intros g F Hg HF. apply (computedDisplay_transfer fuel this w); simpl.
      - exact HF.
      - apply view_insert with (f := f); assumption.
      - exact Hd. }
    unfold onUnmount, display_none_or_visibility, unawaited, validate_begin,
      setValidating, value, initialValue, setValue, path_call, form_call,
      this_form, this_path, this_field, update_this, bind, ret, throw.
    unfold Form.getValuesIn, Form.notify, Form.engine_validate in *.
    destruct (modified f) eqn:Hmod;
      try destruct (isValid (FormPath.getIn p (Form.values (world_form w))))
            eqn:Hvalid.
    all: repeat (progress (simpl;
           rewrite ?lookup_insert_eq, ?insert_insert_eq, ?Hvalid, ?Hex;
           field_read)).
    all: rewrite Hstep by reflexivity.
    all: destruct d as [[| |]|]; simpl.
    all: rewrite ?Hstep by reflexivity; simpl.
    all: rewrite ?lookup_insert_eq; simpl.
    all: destruct (void f) eqn:Hvoid; simpl.
    all: repeat (progress (simpl;
           rewrite ?lookup_insert_eq, ?insert_insert_eq, ?Hvalid, ?Hex;
           field_read)).
    all: eexists; eexists; (split; [reflexivity|]); simpl.
    all: rewrite ?lookup_insert_eq, ?getIn_setIn.
    all: repeat split.
Qed.

(** C9 at a hidden field whose path exists, and at a field whose path
    does not. *)
Lemma C9_onUnmount_witness :
  bound world_hidden_a 0
    (field_at [Key "a"] (props_display_only (Some none))) [Key "a"] /\
  FormPath.existIn (Form.values (world_form world_hidden_a)) [Key "a"] = true /\
  computedDisplay 1 0 world_hidden_a = (Ok (Some none), world_hidden_a) /\
  (exists w' f',
     onUnmount 1 0 world_hidden_a = (Ok tt, w') /\
     Form.fields (world_form w') = Form.fields (world_form world_hidden_a) /\
     heap w' !! 0 = Some f' /\ mounted f' = false /\ unmounted f' = true /\
     Form.getValuesIn [Key "a"] (world_form w') = JUndefined) /\
  bound world_abc 3
    (field_at [Key "a"; Key "b"; Key "c"] (props_display_only None))
    [Key "a"; Key "b"; Key "c"] /\
  FormPath.existIn (Form.values (world_form world_abc))
    [Key "a"; Key "b"; Key "c"] = false /\
  (exists w' f',
     onUnmount 3 3 world_abc = (Ok tt, w') /\
     Form.fields (world_form w') !! "a.b.c" = None /\
     heap w' !! 3 = Some f' /\ mounted f' = false /\ unmounted f' = true).
Proof.
  assert (Hb : bound world_hidden_a 0
                 (field_at [Key "a"] (props_display_only (Some none)))
                 [Key "a"]).
  { repeat split. }
  assert (Hb3 : bound world_abc 3
                  (field_at [Key "a"; Key "b"; Key "c"]
                     (props_display_only None))
                  [Key "a"; Key "b"; Key "c"]).
  { repeat split. }
  split; [exact Hb|]. split; [reflexivity|]. split; [reflexivity|].
  destruct (C9_onUnmount _ _ _ _ 1 Hb) as [_ Hexists].
  destruct (Hexists (Some none) eq_refl eq_refl)
    as (w' & f' & Hrun & Hreg & Hf' & Hm & Hu & Hclear).
  split.
  { exists w', f'. repeat (split; [assumption|]). exact Hclear. }
  split; [exact Hb3|]. split; [reflexivity|].
  destruct (C9_onUnmount _ _ _ _ 3 Hb3) as [Hgone _].
  destruct (Hgone eq_refl) as (w3 & f3 & Hrun3 & Hreg3 & _ & Hf3 & Hm3 & Hu3).
  exists w3, f3. repeat (split; [assumption|]). exact Hu3.
Defined.

(** * Further properties *)

(** ** Calls that only read *)

Section Reads.

Lemma reads_ret {A : Type} (a : A) : reads (ret a).
Proof. intros w. reflexivity. Qed.

Lemma reads_throw {A : Type} (e : fault) : reads (@throw A e).
Proof. intros w. reflexivity. Qed.

Lemma reads_bind {A B : Type} (m : M A) (k : A -> M B) :
  reads m -> (forall a, reads (k a)) -> reads (bind m k).
Proof.
  intros Hm Hk w. unfold bind. pose proof (Hm w) as Hw.
  destruct (m w) as [[a|e] w']; simpl in Hw; subst w'; [apply Hk|reflexivity].
Qed.

Lemma reads_this_field (this : ref) : reads (this_field this).
Proof. intros w. unfold this_field. destruct (heap w !! this); reflexivity. Qed.

Lemma reads_this_form (this : ref) : reads (this_form this).
Proof.
  apply reads_bind; [apply reads_this_field|].
  intros f w. destruct (form f) as [[]|]; reflexivity.
Qed.

Lemma reads_this_path (this : ref) : reads (this_path this).
Proof.
  apply reads_bind; [apply reads_this_field|].
  intros f w. destruct (path f); reflexivity.
Qed.

End Reads.

(** Decompose a getter into the reads it is made of. *)
Ltac reading :=
  repeat first
    [ apply reads_ret
    | apply reads_throw
    | apply reads_this_field
    | apply reads_this_form
    | apply reads_this_path
    | apply reads_bind; [|intros ?]
    | match goal with
      | |- reads (if ?b then _ else _) => destruct b
      | |- reads (match ?x with _ => _ end) => destruct x
      end
    | progress unfold initialValue, value, parent, parent_attribute,
        computedDisplay, computedPattern, display_none_or_visibility,
        required, key, index, registered, getSibling, getChildren,
        errors, warnings, successes ].

Section Getters.

Lemma reads_initialValue (this : ref) : reads (initialValue this).
Proof. reading. Qed.

Lemma reads_value (this : ref) : reads (value this).
Proof. reading. Qed.

Lemma reads_parent (fuel : nat) (this : ref) : reads (parent fuel this).
Proof. reading. Qed.

Lemma reads_computedDisplay (fuel : nat) (this : ref) :
  reads (computedDisplay fuel this).
Proof. reading. Qed.

Lemma reads_computedPattern (fuel : nat) (this : ref) :
  reads (computedPattern fuel this).
Proof. reading. Qed.

Lemma reads_display_none_or_visibility (fuel : nat) (this : ref) :
  reads (display_none_or_visibility fuel this).
Proof. reading. Qed.

Lemma reads_array_loop (this : ref) (fuel : nat) :
  forall q : FormPath, reads (array_loop fuel this q).
Proof.
  induction fuel as [|fuel IH]; intros q; simpl; reading.
  apply IH.
Qed.

Lemma reads_array (fuel : nat) (this : ref) : reads (array fuel this).
Proof. unfold array. reading. apply reads_array_loop. Qed.

Lemma reads_lookups (fuel : nat) (this : ref) :
  reads (key this) /\ reads (index this) /\
  (forall k, reads (getSibling k this)) /\
  (forall s, reads (getChildren s this)) /\
  (forall i s, reads (getArraySibling fuel i s this)) /\
  reads (required this) /\
  reads (errors this) /\ reads (warnings this) /\ reads (successes this).
Proof.
  repeat split; intros; try solve [reading].
  unfold getArraySibling.
  apply reads_bind; [apply reads_array|]. intros ?. reading.
Qed.

End Getters.

(** ** A logic of what calls maintain *)

Section Maintains.

Context (P : World -> Prop) (R : World -> World -> Prop) `{!PreOrder R}.

Lemma maintains_reads {A : Type} (m : M A) : reads m -> maintains P R m.
Proof.
  intros Hm w HP. rewrite (Hm w). split; [exact HP | reflexivity].
Qed.

Lemma maintains_bind {A B : Type} (m : M A) (k : A -> M B) :
  maintains P R m -> (forall a, maintains P R (k a)) ->
  maintains P R (bind m k).
Proof.
  intros Hm Hk w HP. unfold bind. destruct (Hm w HP) as [HP' HR'].
  destruct (m w) as [[a|e] w']; simpl in *.
  - destruct (Hk a w' HP') as [HP'' HR'']. split; [exact HP''|].
    etrans; eassumption.
  - split; assumption.
Qed.

Lemma maintains_unawaited (m : M unit) :
  maintains P R m -> maintains P R (unawaited m).
Proof. intros Hm w HP. unfold unawaited. simpl. apply Hm. exact HP. Qed.

Lemma maintains_update (this : ref) (g : Field -> Field) :
  (forall w f, P w -> heap w !! this = Some f ->
     P (with_field this (g f) w) /\ R w (with_field this (g f) w)) ->
  maintains P R (update_this this g).
Proof.
  intros Hg w HP. unfold update_this.
  destruct (heap w !! this) as [f|] eqn:Hf; simpl.
  - apply Hg; assumption.
  - split; [exact HP | reflexivity].
Qed.

Lemma maintains_form_call (this : ref) (g : Form -> Form) :
  (forall w, P w ->
     P (with_form (g (world_form w)) w) /\
     R w (with_form (g (world_form w)) w)) ->
  maintains P R (form_call this g).
Proof.
  intros Hg. unfold form_call. apply maintains_bind.
  - apply maintains_reads. apply reads_this_form.
  - intros _ w HP. simpl. apply Hg. exact HP.
Qed.

Lemma maintains_path_call (this : ref) (g : FormPath -> Form -> Form) :
  (forall p w, P w ->
     P (with_form (g p (world_form w)) w) /\
     R w (with_form (g p (world_form w)) w)) ->
  maintains P R (path_call this g).
Proof.
  intros Hg. unfold path_call.
  apply maintains_bind; [apply maintains_reads, reads_this_form|].
  intros _.
  apply maintains_bind; [apply maintains_reads, reads_this_path|].
  intros p. apply maintains_form_call. apply Hg.
Qed.

(** Two writes to [this] in a row are one write. *)
Lemma maintains_update_twice {A : Type} (this : ref) (g1 g2 : Field -> Field)
    (k : M A) :
  maintains P R (update_this this (fun f => g2 (g1 f));; k) ->
  maintains P R (update_this this g1;; update_this this g2;; k).
Proof.
  intros H w HP.
  assert (E : (update_this this g1;; update_this this g2;; k) w
              = (update_this this (fun f => g2 (g1 f));; k) w).
  { unfold bind, update_this.
    destruct (heap w !! this) as [f|]; simpl; [|reflexivity].
    rewrite lookup_insert_eq, insert_insert_eq. reflexivity. }
  rewrite E. apply H. exact HP.
Qed.

(** What holds of every call of a kind holds along every sequence of
    calls of that kind. *)
Lemma maintains_run (Q : ref * Operation -> Prop)
    (calls : list (ref * Operation)) :
  (forall this o, Q (this, o) -> maintains P R (perform o this)) ->
  Forall Q calls ->
  forall w, P w -> P (run calls w) /\ R w (run calls w).
Proof.
  intros Hstep HQ. unfold run.
  induction HQ as [|[this o] calls Hc _ IH]; intros w HP; simpl.
  - split; [exact HP | reflexivity].
  - destruct (Hstep this o Hc w HP) as [HP' HR'].
    destruct (IH _ HP') as [HP'' HR'']. split; [exact HP''|].
    etrans; eassumption.
Qed.

End Maintains.

(** Decompose an operation into its reads and writes; [known] closes the
    calls that need an argument of their own, [side] the conditions on the
    writes. *)
Ltac mapply L :=
  apply L;
  try lazymatch goal with |- PreOrder _ => typeclasses eauto end.

Ltac maintain known side :=
  repeat first
    [ known
    | lazymatch goal with
      | |- maintains _ _ (bind _ _) =>
          mapply maintains_bind; [| intros ?]
      | |- maintains _ _ (unawaited _) => mapply maintains_unawaited
      | |- maintains _ _ (update_this _ _) =>
          mapply maintains_update; solve [side]
      | |- maintains _ _ (form_call _ _) =>
          mapply maintains_form_call; solve [side]
      | |- maintains _ _ (path_call _ _) =>
          mapply maintains_path_call; solve [side]
      | |- maintains _ _ (if ?b then _ else _) => destruct b
      | |- maintains _ _ (match ?x with _ => _ end) => destruct x
      | |- maintains _ _ (ret _) => mapply maintains_reads; apply reads_ret
      | |- maintains _ _ (throw _) =>
          mapply maintains_reads; apply reads_throw
      | |- maintains _ _ (value _) =>
          mapply maintains_reads; apply reads_value
      | |- maintains _ _ (initialValue _) =>
          mapply maintains_reads; apply reads_initialValue
      | |- maintains _ _ (display_none_or_visibility _ _) =>
          mapply maintains_reads; apply reads_display_none_or_visibility
      | |- maintains _ _ (this_field _) =>
          mapply maintains_reads; apply reads_this_field
      | |- maintains _ _ (this_form _) =>
          mapply maintains_reads; apply reads_this_form
      | |- maintains _ _ (this_path _) =>
          mapply maintains_reads; apply reads_this_path
      end
    | progress unfold perform, ignore
    | progress unfold update_if_any, setValidating, validate_begin,
        validate_resume, validate, setValue, setInitialValue, initialize,
        setErrors, setWarnings, setValidator, setRequired,
        setPattern, setLoading, setComponent, setComponentProps,
        setDecorator, setDecoratorProps, setDisplay,
        onInit, onMount, onUnmount, onInput, onFocus, onBlur,
        reset_action, reset ].

(** ** What no operation changes *)

Section Identity.

#[global] Instance same_view_preorder {V : Type} (view : Field -> V) :
  PreOrder (same_view view).
Proof.
  split.
  - intros w r. reflexivity.
  - intros w1 w2 w3 H12 H23 r. rewrite H23. apply H12.
Qed.

Lemma same_view_update {V : Type} (view : Field -> V) (this : ref)
    (f g : Field) (w : World) :
  heap w !! this = Some f -> view g = view f ->
  same_view view w (with_field this g w).
Proof.
  intros Hf Hview r. simpl. destruct (decide (this = r)) as [<-|Hne].
  - rewrite lookup_insert_eq, Hf. simpl. rewrite Hview. reflexivity.
  - rewrite lookup_insert_ne by exact Hne. reflexivity.
Qed.

(** No method assigns [form] or [path], and none creates or removes a
    field object. *)
Lemma identity_maintained (this : ref) (o : Operation) :
  maintains anything (same_view identity) (perform o this).
Proof.
  destruct o;
    maintain ltac:(idtac; fail)
      ltac:(intros; split; [exact I|];
            first [ eapply same_view_update; [eassumption | reflexivity]
                  | intros ?; reflexivity ]).
Qed.

End Identity.

Section Frames.

#[global] Instance others_untouched_preorder (this : ref) :
  PreOrder (others_untouched this).
Proof.
  split.
  - intros w r _. reflexivity.
  - intros w1 w2 w3 H12 H23 r Hr. rewrite H23 by exact Hr. apply H12, Hr.
Qed.

#[global] Instance registry_shrinks_preorder : PreOrder registry_shrinks.
Proof.
  split.
  - intros w k r H. exact H.
  - intros w1 w2 w3 H12 H23 k r H. apply H12, H23, H.
Qed.

#[global] Instance same_registry_preorder : PreOrder same_registry.
Proof.
  split.
  - intros w. reflexivity.
  - intros w1 w2 w3 H12 H23. unfold same_registry in *. congruence.
Qed.

#[global] Instance same_trees_preorder : PreOrder same_trees.
Proof.
  split.
  - intros w. split; reflexivity.
  - intros w1 w2 w3 [Hv Hi] [Hv' Hi']. split; congruence.
Qed.

#[global] Instance same_initialValues_preorder : PreOrder same_initialValues.
Proof.
  split.
  - intros w. reflexivity.
  - intros w1 w2 w3 H12 H23. unfold same_initialValues in *. congruence.
Qed.

#[global] Instance modified_kept_preorder : PreOrder modified_kept.
Proof.
  split.
  - intros w H. exact H.
  - intros w1 w2 w3 H12 H23 H. apply H23, H12, H.
Qed.

#[global] Instance whatever_preorder : PreOrder whatever.
Proof. split; repeat intro; exact I. Qed.


(** No call adds an entry to the registry. *)
Lemma registry_maintained (this : ref) (o : Operation) :
  maintains anything registry_shrinks (perform o this).
Proof.
  destruct o;
    maintain ltac:(idtac; fail)
      ltac:(intros; split; [exact I|]; intros k r; simpl;
            first [ exact id
                  | intros [_ Hk]%lookup_delete_Some; exact Hk ]).
Qed.

(** Only [onUnmount] changes the registry. *)
Lemma registry_kept (this : ref) (o : Operation) :
  (forall fuel, o <> OnUnmount fuel) ->
  maintains anything same_registry (perform o this).
Proof.
  intros Ho. destruct o; try (exfalso; eapply Ho; reflexivity);
    maintain ltac:(idtac; fail)
      ltac:(intros; split; [exact I|]; reflexivity).
Qed.

(** No call lowers the Form-level [modified] flag. *)
Lemma modified_maintained (this : ref) (o : Operation) :
  maintains anything modified_kept (perform o this).
Proof.
  destruct o;
    maintain ltac:(idtac; fail)
      ltac:(intros; split; [exact I|]; intros Hm; simpl;
            first [ exact Hm | reflexivity ]).
Qed.

End Frames.

Section MountFlags.

(** The tactic for a write to [this] under [mount_exclusive]. *)
Ltac exclusive_side :=
  intros ? ? HP Hf; split; [|exact I];
  intros r f' Hr; simpl in Hr;
  match type of Hr with
  | <[?this := _]> _ !! r = _ =>
      destruct (decide (this = r)) as [<-|Hne];
      [ rewrite lookup_insert_eq in Hr; injection Hr as <-;
        first [ reflexivity | exact (HP _ _ Hf) ]
      | rewrite lookup_insert_ne in Hr by exact Hne; exact (HP _ _ Hr) ]
  | _ => exact (HP _ _ Hr)
  end.

(** [onMount] and [onUnmount] write both flags before anything else can
    happen; every other operation leaves both as they are. *)
Lemma mount_exclusive_maintained (this : ref) (o : Operation) :
  maintains mount_exclusive whatever (perform o this).
Proof.
  destruct o;
    maintain
      ltac:(idtac; lazymatch goal with
            | |- maintains _ _
                   (bind (update_this _ (set_mounted _))
                      (fun _ => bind (update_this _ (set_unmounted _)) _)) =>
                apply maintains_update_twice
            end)
      ltac:(idtac; exclusive_side || (intros ? HP; split; [exact HP | exact I])
            || (intros ? ? HP; split; [exact HP | exact I])).
Qed.

End MountFlags.

Section Trees.

#[global] Instance same_values_preorder : PreOrder same_values.
Proof.
  split.
  - intros w. reflexivity.
  - intros w1 w2 w3 H12 H23. unfold same_values in *. congruence.
Qed.

(** The values tree is written by [setValue], [setDisplay], [onInput],
    [onUnmount] and [reset] only. *)
Lemma values_kept (this : ref) (o : Operation) :
  writes_values o = false ->
  maintains anything same_values (perform o this).
Proof.
  intros Ho. destruct o; try discriminate Ho;
    maintain ltac:(idtac; fail)
      ltac:(intros; split; [exact I|]; reflexivity).
Qed.

(** The initialValues tree is written by [setInitialValue] and by a
    [reset] with [clearInitialValue] only. *)
Lemma initialValues_kept (this : ref) (o : Operation) :
  writes_initialValues o = false ->
  maintains anything same_initialValues (perform o this).
Proof.
  intros Ho. destruct o; try discriminate Ho;
    try (destruct options as [force val clear]; simpl in Ho; subst clear;
         unfold perform, ignore, reset, reset_action; simpl);
    maintain ltac:(idtac; fail)
      ltac:(intros; split; [exact I|]; reflexivity).
Qed.

End Trees.

Section VoidFields.

Variable this : ref.

Lemma void_setValue (v : jsval) :
  maintains (is_void this) same_trees (setValue v this).
Proof.
  intros w HP. unfold setValue, bind, this_field.
  destruct (heap w !! this) as [f|] eqn:Hf; simpl.
  - rewrite (HP f Hf). simpl. split; [exact HP | reflexivity].
  - split; [exact HP | reflexivity].
Qed.

Lemma void_setInitialValue (v : jsval) :
  maintains (is_void this) same_trees (setInitialValue v this).
Proof.
  intros w HP. unfold setInitialValue, bind, this_field.
  destruct (heap w !! this) as [f|] eqn:Hf; simpl.
  - rewrite (HP f Hf). simpl. split; [exact HP | reflexivity].
  - split; [exact HP | reflexivity].
Qed.

Lemma void_onInput (args : list jsval) :
  maintains (is_void this) same_trees (onInput args this).
Proof.
  intros w HP. unfold onInput, bind, this_field.
  destruct (heap w !! this) as [f|] eqn:Hf; simpl.
  - rewrite (HP f Hf). simpl. split; [exact HP | reflexivity].
  - split; [exact HP | reflexivity].
Qed.

Ltac void_side :=
  first
    [ intros ? ? HP Hf; split; [|split; reflexivity];
      intros f' Hf'; simpl in Hf'; rewrite lookup_insert_eq in Hf';
      injection Hf' as <-; exact (HP _ Hf)
    | intros ? HP; split; [exact HP | split; reflexivity]
    | intros ? ? HP; split; [exact HP | split; reflexivity] ].

(** A void field stays void and writes neither tree, whatever is called
    on it short of a new [initialize]. *)
Lemma void_maintained (o : Operation) :
  is_initialize o = false ->
  maintains (is_void this) same_trees (perform o this).
Proof.
  intros Ho. destruct o; try discriminate Ho;
    maintain
      ltac:(idtac; lazymatch goal with
            | |- maintains _ _ (setValue _ _) => apply void_setValue
            | |- maintains _ _ (setInitialValue _ _) =>
                apply void_setInitialValue
            | |- maintains _ _ (onInput _ _) => apply void_onInput
            end)
      ltac:(idtac; void_side).
Qed.

End VoidFields.

(** ** Invariants along sequences of calls *)

(** Along any sequence of calls, on any fields, every field object keeps
    the Form and the path it has, and no field object appears or
    disappears. *)
Theorem identity_is_never_reassigned (calls : list (ref * Operation))
    (w : World) :
  same_view identity w (run calls w).
Proof.
  apply (maintains_run anything (same_view identity) (fun _ => True) calls).
  - intros this o _. apply identity_maintained.
  - apply Forall_forall. intros c _. exact I.
  - exact I.
Qed.


(** No call adds an entry to the registry of the Form, and only
    [onUnmount] removes one. *)
Theorem registry_never_grows (calls : list (ref * Operation)) (w : World) :
  registry_shrinks w (run calls w) /\
  (Forall (fun c => forall fuel, snd c <> OnUnmount fuel) calls ->
   same_registry w (run calls w)).
Proof.
  split.
  - apply (maintains_run anything registry_shrinks (fun _ => True) calls).
    + intros this o _. apply registry_maintained.
    + apply Forall_forall. intros c _. exact I.
    + exact I.
  - intros Hcalls.
    apply (maintains_run anything same_registry
             (fun c => forall fuel, snd c <> OnUnmount fuel) calls).
    + intros this o Ho. apply registry_kept. exact Ho.
    + exact Hcalls.
    + exact I.
Qed.

(** Once the Form-level [modified] flag is set, no call on any field
    lowers it, a [reset] included. *)
Theorem form_modified_is_never_lowered (calls : list (ref * Operation))
    (w : World) :
  Form.modified (world_form w) = true ->
  Form.modified (world_form (run calls w)) = true.
Proof.
  apply (maintains_run anything modified_kept (fun _ => True) calls).
  - intros this o _. apply modified_maintained.
  - apply Forall_forall. intros c _. exact I.
  - exact I.
Qed.

(** In a world where no field is mounted and unmounted at once, none is
    after any sequence of calls. *)
Theorem mounted_excludes_unmounted (calls : list (ref * Operation))
    (w : World) :
  mount_exclusive w -> mount_exclusive (run calls w).
Proof.
  intros Hw.
  apply (maintains_run mount_exclusive whatever (fun _ => True) calls).
  - intros this o _. apply mount_exclusive_maintained.
  - apply Forall_forall. intros c _. exact I.
  - exact Hw.
Qed.

(** The values tree is as it was after any sequence of calls other than
    [setValue], [setDisplay], [onInput], [onUnmount] and [reset]; the
    initialValues tree after any sequence of calls other than
    [setInitialValue] and a [reset] with [clearInitialValue]. *)
Theorem trees_have_few_writers (calls : list (ref * Operation)) (w : World) :
  (Forall (fun c => writes_values (snd c) = false) calls ->
   same_values w (run calls w)) /\
  (Forall (fun c => writes_initialValues (snd c) = false) calls ->
   same_initialValues w (run calls w)).
Proof.
  split; intros Hcalls.
  - apply (maintains_run anything same_values
             (fun c => writes_values (snd c) = false) calls).
    + intros this o Ho. apply values_kept. exact Ho.
    + exact Hcalls.
    + exact I.
  - apply (maintains_run anything same_initialValues
             (fun c => writes_initialValues (snd c) = false) calls).
    + intros this o Ho. apply initialValues_kept. exact Ho.
    + exact Hcalls.
    + exact I.
Qed.

(** A void field stays void and never writes the values tree or the
    initialValues tree, whatever sequence of calls is made on it, as long
    as it is not initialized anew. *)
Theorem void_field_never_writes_trees (this : ref)
    (calls : list (ref * Operation)) (w : World) :
  Forall (fun c => fst c = this /\ is_initialize (snd c) = false) calls ->
  is_void this w ->
  is_void this (run calls w) /\ same_trees w (run calls w).
Proof.
  intros Hcalls Hw.
  apply (maintains_run (is_void this) same_trees
           (fun c => fst c = this /\ is_initialize (snd c) = false) calls).
  - intros r o [Hr Ho]. simpl in Hr. subst r. apply void_maintained.
    exact Ho.
  - exact Hcalls.
  - exact Hw.
Qed.

(** ** Key, index, children and siblings *)

Section PathLookups.

Lemma index_loop_take (segments : list Segment) (n : nat) :
  n <= length segments ->
  index_loop segments n = last (omap segment_index (take n segments)).
Proof.
  induction n as [|i IH]; intros Hn; simpl.
  - reflexivity.
  - destruct (lookup_lt_is_Some_2 segments i ltac:(lia)) as [s Hs].
    rewrite Hs. rewrite (take_S_r _ _ _ Hs), omap_app. simpl.
    destruct s as [k|item]; simpl.
    + rewrite app_nil_r. apply IH. lia.
    + rewrite last_snoc. reflexivity.
Qed.

Lemma index_loop_last (segments : list Segment) :
  index_loop segments (length segments)
  = last (omap segment_index segments).
Proof.
  rewrite index_loop_take by lia. rewrite firstn_all. reflexivity.
Qed.

Lemma omap_keys (segments : list Segment) :
  Forall is_key segments -> omap segment_index segments = [].
Proof.
  induction 1 as [|[k|i] l Hs _ IH]; simpl; [reflexivity|exact IH|destruct Hs].
Qed.

Lemma join_two (n m : string) (rest : list string) :
  FormPath.join (n :: m :: rest) <> "".
Proof.
  change (FormPath.join (n :: m :: rest))
    with (n ++ "." ++ FormPath.join (m :: rest)).
  destruct n; simpl; discriminate.
Qed.

(** A path of two segments or more has an identifier that is not empty. *)
Lemma toString_nonempty (p : FormPath) (s t : Segment) (rest : FormPath) :
  p = s :: t :: rest -> FormPath.toString p <> "".
Proof. intros ->. unfold FormPath.toString. simpl map. apply join_two. Qed.

Lemma toString_concat_nonempty (q : FormPath) (k : string) :
  k <> "" -> FormPath.toString (FormPath.concat q [Key k]) <> "".
Proof.
  intros Hk. unfold FormPath.concat.
  destruct q as [|s [|t q]]; simpl app.
  - exact Hk.
  - eapply toString_nonempty. reflexivity.
  - eapply toString_nonempty. reflexivity.
Qed.

Lemma parent_concat (p : FormPath) (s : Segment) :
  FormPath.parent (FormPath.concat p [s]) = p.
Proof. apply removelast_last. Qed.

Lemma registered_run (w : World) (this : ref) (f : Field)
    (identifier : string) :
  heap w !! this = Some f -> form f = Some TheForm -> identifier <> "" ->
  registered identifier this w
  = (Ok (Form.fields (world_form w) !! identifier), w).
Proof.
  intros Hheap Hform Hid. unfold registered.
  destruct (String.eqb identifier "") eqn:E.
  - apply String.eqb_eq in E. contradiction.
  - field_exec. reflexivity.
Qed.

End PathLookups.

(** On a field with an assigned path, [index] is the last numeric segment
    of the path, whatever follows it, and undefined when the path has no
    numeric segment. *)
Theorem index_is_last_numeric_segment (w : World) (this : ref) (f : Field)
    (p : FormPath) :
  heap w !! this = Some f -> path f = Some p ->
  (forall pre i post,
     p = (pre ++ Index i :: post)%list -> Forall is_key post ->
     index this w = (Ok (Some i), w)) /\
  (Forall is_key p -> index this w = (Ok None, w)).
Proof.
  intros Hheap Hpath. split.
  - intros pre i post -> Hpost. unfold index. field_exec.
    rewrite index_loop_last.
    change (Index i :: post) with ([Index i] ++ post)%list.
    rewrite !omap_app, (omap_keys post Hpost), app_nil_r.
    change (omap segment_index [Index i]) with [i].
    rewrite last_snoc. reflexivity.
  - intros Hp. unfold index. field_exec.
    rewrite index_loop_last, (omap_keys p Hp). reflexivity.
Qed.

(** A field and the child it reaches with [getChildren]: when both are
    registered under their path strings, [getChildren(key)] of the field
    is the child, [parent] of the child is the field whatever the fuel,
    and [key] of the child is the key. *)
Theorem child_and_parent_round_trip (w : World) (this child : ref)
    (f g : Field) (p : FormPath) (s : Segment) :
  bound w this f p ->
  bound w child g (FormPath.concat p [s]) ->
  Form.fields (world_form w) !! FormPath.toString p = Some this ->
  Form.fields (world_form w)
    !! FormPath.toString (FormPath.concat p [s]) = Some child ->
  getChildren s this w = (Ok (Some child), w) /\
  (forall fuel, parent fuel child w = (Ok (Some this), w)) /\
  key child w = (Ok (Some s), w).
Proof.
  intros Hthis Hchild Hreg Hregc. split; [|split].
  - unbind Hthis. unfold getChildren. field_exec. rewrite Hregc. reflexivity.
  - intros fuel. unbind Hchild. unfold parent. field_exec.
    rewrite parent_concat.
    destruct fuel; simpl; rewrite Hreg; reflexivity.
  - unbind Hchild. unfold key. field_exec.
    unfold FormPath.concat. rewrite last_snoc. reflexivity.
Qed.

(** Two fields under the same parent path find each other with
    [getSibling], given the key of the other. *)
Theorem siblings_find_each_other (w : World) (a b : ref) (fa fb : Field)
    (q : FormPath) (ka kb : string) :
  bound w a fa (FormPath.concat q [Key ka]) ->
  bound w b fb (FormPath.concat q [Key kb]) ->
  ka <> "" -> kb <> "" ->
  Form.fields (world_form w)
    !! FormPath.toString (FormPath.concat q [Key ka]) = Some a ->
  Form.fields (world_form w)
    !! FormPath.toString (FormPath.concat q [Key kb]) = Some b ->
  getSibling kb a w = (Ok (Some b), w) /\
  getSibling ka b w = (Ok (Some a), w) /\
  getSibling ka a w = (Ok (Some a), w).
Proof.
  intros Ha Hb Hka Hkb Hrega Hregb.
  assert (Hrun : forall this f s k r,
    bound w this f (FormPath.concat q [s]) -> k <> "" ->
    Form.fields (world_form w)
      !! FormPath.toString (FormPath.concat q [Key k]) = Some r ->
    getSibling k this w = (Ok (Some r), w)).
  { intros this f s k r Hthis Hk Hr. unbind Hthis.
    unfold getSibling, bind, this_field. rewrite Hheap. simpl.
    rewrite Hpath, parent_concat.
    rewrite (registered_run w this f _ Hheap Hform
               (toString_concat_nonempty q k Hk)).
    rewrite Hr. reflexivity. }
  repeat split; eapply Hrun; eassumption.
Qed.

(** Before a path is assigned, the getters written with the optional
    chain answer undefined, also without a Form, while [getChildren],
    [parent] and [array] throw. *)
Theorem lookups_before_a_path_is_assigned (w : World) (this : ref)
    (f : Field) :
  heap w !! this = Some f -> path f = None ->
  key this w = (Ok None, w) /\
  index this w = (Ok None, w) /\
  (forall k, getSibling k this w = (Ok None, w)) /\
  (forall s, getChildren s this w = (Err TypeError, w)) /\
  (forall fuel, parent fuel this w = (Err TypeError, w)) /\
  (forall fuel, array fuel this w = (Err TypeError, w)).
Proof.
  intros Hheap Hpath.
  repeat split; intros;
    unfold key, index, getSibling, getChildren, array;
    field_exec; reflexivity.
Qed.

(** ** The array getter *)

Section ArrayGetter.

Variables (w : World) (this : ref) (f : Field) (p : FormPath).
Hypothesis Hbound : bound w this f p.

Lemma array_loop_found (fuel : nat) (q : FormPath) (a : ref) :
  array_valued w (FormPath.toString q) a ->
  array_loop fuel this q w = (Ok (Some a), w).
Proof using Hbound.
  intros (Hreg & v & Hv & Harr). unbind Hbound.
  destruct fuel; simpl; unfold this_form, this_field, bind;
    rewrite Hheap; simpl; rewrite Hform; simpl;
    rewrite Hreg, Hv; simpl; rewrite Harr; reflexivity.
Qed.

Lemma array_loop_step (fuel : nat) (q : FormPath) :
  not_array_valued w (FormPath.toString q) ->
  array_loop (S fuel) this q w =
    if String.eqb (FormPath.toString (FormPath.parent q)) ""
    then (Ok None, w)
    else array_loop fuel this (FormPath.parent q) w.
Proof using Hbound.
  intros Hnot. unbind Hbound.
  simpl. unfold this_form, this_field, bind.
  rewrite Hheap. simpl. rewrite Hform. simpl.
  destruct Hnot as [Hnone | (r & v & Hreg & Hv & Harr)].
  - rewrite Hnone. simpl.
    destruct (String.eqb _ ""); reflexivity.
  - rewrite Hreg, Hv. simpl. rewrite Harr.
    destruct (String.eqb _ ""); reflexivity.
Qed.

(** The walk stops at the first ancestor whose value is an array. *)
Lemma array_loop_finds (k : nat) :
  forall (fuel : nat) (q : FormPath) (a : ref),
    (forall j, j < k ->
       not_array_valued w (FormPath.toString (ancestor j q)) /\
       FormPath.toString (ancestor (S j) q) <> "") ->
    array_valued w (FormPath.toString (ancestor k q)) a ->
    k <= fuel ->
    array_loop fuel this q w = (Ok (Some a), w).
Proof using Hbound.
  induction k as [|k IH]; intros fuel q a Hbelow Hk Hfuel.
  - apply array_loop_found. exact Hk.
  - destruct fuel as [|fuel]; [lia|].
    destruct (Hbelow 0 ltac:(lia)) as [Hnot Hid].
    rewrite array_loop_step by exact Hnot.
    change (ancestor 1 q) with (FormPath.parent q) in Hid.
    apply String.eqb_neq in Hid. rewrite Hid.
    apply IH.
    + intros j Hj. rewrite <- !ancestor_S. apply Hbelow. lia.
    + rewrite <- ancestor_S. exact Hk.
    + lia.
Qed.

(** Without an array-valued ancestor the walk ends at the empty
    identifier and gives undefined. *)
Lemma array_loop_none (fuel : nat) :
  forall q : FormPath,
    (forall j, not_array_valued w (FormPath.toString (ancestor j q))) ->
    length q < fuel ->
    array_loop fuel this q w = (Ok None, w).
Proof using Hbound.
  induction fuel as [|fuel IH]; intros q Hnone Hlen; [lia|].
  rewrite array_loop_step by exact (Hnone 0).
  destruct (String.eqb _ "") eqn:E; [reflexivity|].
  apply IH.
  - intros j. rewrite <- ancestor_S. apply Hnone.
  - rewrite parent_length.
    destruct q as [|s q']; [vm_compute in E; discriminate E|].
    simpl in *. lia.
Qed.

Lemma array_run (fuel : nat) :
  array fuel this w = array_loop fuel this (FormPath.parent p) w.
Proof using Hbound. unbind Hbound. unfold array. field_exec. reflexivity. Qed.

End ArrayGetter.

(** On a bound field, [array] is the nearest ancestor field whose value is
    an array, as soon as the fuel covers the steps up to it; when no
    ancestor identifier, the empty one included, has an array value,
    [array] is undefined. *)
Theorem array_is_nearest_array_valued_ancestor (w : World) (this : ref)
    (f : Field) (p : FormPath) (fuel : nat) :
  bound w this f p ->
  (forall (k : nat) (a : ref),
     (forall j, j < k ->
        not_array_valued w
          (FormPath.toString (ancestor j (FormPath.parent p))) /\
        FormPath.toString (ancestor (S j) (FormPath.parent p)) <> "") ->
     array_valued w (FormPath.toString (ancestor k (FormPath.parent p))) a ->
     k <= fuel ->
     array fuel this w = (Ok (Some a), w)) /\
  ((forall j,
      not_array_valued w
        (FormPath.toString (ancestor j (FormPath.parent p)))) ->
   length p <= fuel -> p <> [] ->
   array fuel this w = (Ok None, w)).
Proof.
  intros Hb. split.
  - intros k a Hbelow Hk Hfuel.
    rewrite (array_run w this f p Hb).
    eapply array_loop_finds; eassumption.
  - intros Hnone Hfuel Hp.
    rewrite (array_run w this f p Hb).
    eapply array_loop_none; [eassumption | exact Hnone |].
    rewrite parent_length. destruct p; [congruence | simpl in *; lia].
Qed.

(** With the nearest array-valued ancestor of a bound field registered
    at [pa], which is not the root, [getArraySibling(index, key)] is the
    field registered under [pa.index] followed by the key, if any, and
    undefined when none is registered there. *)
Theorem getArraySibling_is_relative_to_array (w : World) (this a : ref)
    (f g : Field) (p pa : FormPath) (fuel k index : nat)
    (key : option Segment) :
  bound w this f p ->
  (forall j, j < k ->
     not_array_valued w
       (FormPath.toString (ancestor j (FormPath.parent p))) /\
     FormPath.toString (ancestor (S j) (FormPath.parent p)) <> "") ->
  array_valued w (FormPath.toString (ancestor k (FormPath.parent p))) a ->
  k <= fuel ->
  heap w !! a = Some g -> path g = Some pa -> pa <> [] ->
  getArraySibling fuel index key this w =
    (Ok (Form.fields (world_form w)
           !! FormPath.toString
                (FormPath.concat (FormPath.concat pa [Index index])
                   (option_list key))), w).
Proof.
  intros Hb Hbelow Hk Hfuel Ha Hpa Hne.
  assert (Harray : array fuel this w = (Ok (Some a), w)).
  { rewrite (array_run w this f p Hb).
    eapply array_loop_finds; eassumption. }
  pose proof Hb as Hb'. unbind Hb'.
  unfold getArraySibling, bind at 1. rewrite Harray.
  unfold bind, this_field. rewrite Ha. simpl. rewrite Hpa.
  apply (registered_run w this f _ Hheap Hform).
  unfold FormPath.concat. destruct pa as [|s pa']; [congruence|].
  destruct pa' as [|t pa'']; simpl app;
    eapply toString_nonempty; reflexivity.
Qed.

(** ** Validation runs *)

Lemma value_run (w : World) (this : ref) (f : Field) (p : FormPath) :
  bound w this f p ->
  value this w = (Ok (value_of (world_form w) f p), w).
Proof.
  intros Hb. unbind Hb. unfold value_of.
  destruct (modified f) eqn:Hmod;
    [|destruct (isValid (Form.getValuesIn p (world_form w))) eqn:Hvalid];
    repeat (progress (field_exec; rewrite ?Hvalid)); reflexivity.
Qed.

(** An awaited [validate] on a bound field, in full. *)
Lemma validate_run (w : World) (this : ref) (f : Field) (p : FormPath)
    (triggerType : option string) (results : list ValidateResult) :
  bound w this f p ->
  exists w',
    validate triggerType results this w = (Ok (validated results), w') /\
    heap w' = <[this := set_validating false f]> (heap w) /\
    Form.log (world_form w') =
      (Form.log (world_form w)
         ++ Notify ON_FIELD_VALIDATE_START (FieldPayload this)
         :: EngineValidate (value_of (world_form w) f p) (validator f)
              triggerType
         :: map FeedbackUpdate (validate_updates p results)
         ++ [Notify ON_FIELD_VALIDATE_END (FieldPayload this)])%list /\
    Form.feedback (world_form w') =
      fold_left (fun store e => Feedback.update e store)
        (validate_updates p results) (Form.feedback (world_form w)) /\
    same_trees w w' /\ same_registry w w' /\
    Form.modified (world_form w') = Form.modified (world_form w).
Proof.
  intros Hb. unbind Hb.
  unfold validate, validate_resume, validated, validate_updates, value_of.
  rewrite partition_results_spec.
  destruct (messages_of is_error results) as [|e es];
    destruct (messages_of is_warning_or_success results) as [|m ms];
    (destruct (modified f) eqn:Hmod;
     [|destruct (isValid (Form.getValuesIn p (world_form w))) eqn:Hvalid]).
  all: eexists.
  all: split;
    [repeat (progress (field_exec;
       unfold Form.getValuesIn, Form.notify, Form.engine_validate,
         Form.feedback_update in *; simpl;
       rewrite ?Hvalid, ?insert_insert_eq)); reflexivity|].
  all: simpl; rewrite <- ?app_assoc; simpl.
  all: repeat split; reflexivity.
Qed.

(** On a bound field, [validate] raises [validating] before it hands over
    to the engine and lowers it at the end; the calls it makes are
    bracketed by the validate-start and the validate-end notification,
    whatever the engine answered, an empty answer included. *)
Theorem validation_is_bracketed (w : World) (this : ref) (f : Field)
    (p : FormPath) (triggerType : option string)
    (results : list ValidateResult) :
  bound w this f p ->
  (exists w1 f1,
     validate_begin triggerType this w = (Ok tt, w1) /\
     heap w1 !! this = Some f1 /\ validating f1 = true /\
     last (Form.log (world_form w1)) =
       Some (EngineValidate (value_of (world_form w) f p) (validator f)
               triggerType)) /\
  (exists w' f',
     validate triggerType results this w = (Ok (validated results), w') /\
     heap w' !! this = Some f' /\ validating f' = false /\
     Form.log (world_form w') =
       (Form.log (world_form w)
          ++ Notify ON_FIELD_VALIDATE_START (FieldPayload this)
          :: EngineValidate (value_of (world_form w) f p) (validator f)
               triggerType
          :: map FeedbackUpdate (validate_updates p results)
          ++ [Notify ON_FIELD_VALIDATE_END (FieldPayload this)])%list).
Proof.
  intros Hb. split.
  - unbind Hb. unfold value_of.
    destruct (modified f) eqn:Hmod;
      [|destruct (isValid (Form.getValuesIn p (world_form w))) eqn:Hvalid].
    all: eexists; eexists.
    all: split;
      [repeat (progress (field_exec;
         unfold Form.getValuesIn, Form.notify, Form.engine_validate in *;
         simpl; rewrite ?Hvalid)); reflexivity|].
    all: simpl; rewrite lookup_insert_eq.
    all: split; [reflexivity|]. all: split; [reflexivity|].
    all: apply last_snoc.
  - destruct (validate_run w this f p triggerType results Hb)
      as (w' & Hrun & Hheap & Hlog & _).
    exists w', (set_validating false f).
    split; [exact Hrun|]. rewrite Hheap, lookup_insert_eq.
    split; [reflexivity|]. split; [reflexivity | exact Hlog].
Qed.

(** A validation run whose answer carries no error, warning or success
    message leaves the feedback store exactly as it was: what an earlier
    run recorded stays. *)
Theorem silent_validation_keeps_feedback (w : World) (this : ref)
    (f : Field) (p : FormPath) (triggerType : option string)
    (results : list ValidateResult) :
  bound w this f p ->
  messages_of is_error results = [] ->
  messages_of is_warning_or_success results = [] ->
  Form.feedback (world_form (snd (validate triggerType results this w)))
  = Form.feedback (world_form w).
Proof.
  intros Hb He Hw.
  destruct (validate_run w this f p triggerType results Hb)
    as (w' & Hrun & _ & _ & Hfeedback & _).
  rewrite Hrun. simpl. rewrite Hfeedback.
  unfold validate_updates. rewrite He, Hw. reflexivity.
Qed.

(** ** Reset *)

(** The block of [reset] on a bound field. *)
Lemma reset_action_run (w : World) (this : ref) (f : Field) (p : FormPath)
    (options : IFieldResetOptions) :
  bound w this f p ->
  exists w' f',
    reset_action options this w = (Ok tt, w') /\
    bound w' this f' p /\
    modified f' = false /\ visited f' = false /\ void f' = void f /\
    (forceClear options = true ->
     inputValue f' = JUndefined /\ inputValues f' = []) /\
    if void f then same_trees w w'
    else
      Form.getInitialValuesIn p (world_form w') =
        (if clearInitialValue options then JUndefined
         else Form.getInitialValuesIn p (world_form w)) /\
      Form.getValuesIn p (world_form w') =
        (if forceClear options then JUndefined
         else Form.getInitialValuesIn p (world_form w')).
Proof.
  intros Hb. unbind Hb.
  destruct options as [[|] val [|]]; destruct (void f) eqn:Hvoid.
  all: eexists; eexists.
  all: split;
    [unfold reset_action;
     repeat (progress (field_exec; simpl)); reflexivity|].
  all: split;
    [split; [simpl; apply lookup_insert_eq | split; assumption]|].
  all: simpl.
  all: unfold Form.getValuesIn, Form.getInitialValuesIn; simpl.
  all: rewrite ?getIn_setIn.
  all: repeat split; try reflexivity; try discriminate; try assumption.
Qed.

(** After the block of [reset] on a bound field that is not void, the
    field is neither modified nor visited, the stored value is undefined
    under [forceClear] and the initialValue otherwise, and the [value]
    getter reads the initialValue in both cases: under [forceClear] the
    fallback brings it back, unless [clearInitialValue] cleared it too. *)
Theorem reset_reads_initial_value (w : World) (this : ref) (f : Field)
    (p : FormPath) (options : IFieldResetOptions) :
  bound w this f p -> void f = false ->
  exists w' f',
    reset_action options this w = (Ok tt, w') /\
    heap w' !! this = Some f' /\
    modified f' = false /\ visited f' = false /\
    Form.getValuesIn p (world_form w') =
      (if forceClear options then JUndefined
       else Form.getInitialValuesIn p (world_form w')) /\
    Form.getInitialValuesIn p (world_form w') =
      (if clearInitialValue options then JUndefined
       else Form.getInitialValuesIn p (world_form w)) /\
    value this w' = (Ok (Form.getInitialValuesIn p (world_form w')), w').
Proof.
  intros Hb Hvoid.
  destruct (reset_action_run w this f p options Hb)
    as (w' & f' & Hrun & Hb' & Hmod & Hvis & _ & _ & Htrees).
  rewrite Hvoid in Htrees. destruct Htrees as [Hinit Hval].
  exists w', f'. split; [exact Hrun|].
  split; [apply Hb'|]. split; [exact Hmod|]. split; [exact Hvis|].
  split; [exact Hval|]. split; [exact Hinit|].
  rewrite (value_run w' this f' p Hb'). unfold value_of.
  rewrite Hmod, Hval.
  destruct (forceClear options); simpl; [reflexivity|].
  destruct (isValid _); reflexivity.
Qed.

(** An awaited [reset] on a bound field returns: with the [validate]
    option, what a fresh validation run of the reset field returns, and
    undefined without it; the field is left unmodified and not
    validating. *)
Theorem reset_returns (w : World) (this : ref) (f : Field) (p : FormPath)
    (options : IFieldResetOptions) (results : list ValidateResult) :
  bound w this f p ->
  exists w' f',
    reset options results this w =
      (Ok (if validate_after options then Some (validated results)
           else None), w') /\
    heap w' !! this = Some f' /\
    modified f' = false /\ visited f' = false /\
    (validate_after options = true -> validating f' = false).
Proof.
  intros Hb.
  destruct (reset_action_run w this f p options Hb)
    as (w1 & f1 & Hrun & Hb1 & Hmod & Hvis & _).
  unfold reset, bind at 1. rewrite Hrun.
  destruct (validate_after options).
  - destruct (validate_run w1 this f1 p None results Hb1)
      as (w' & Hv & Hheap & _).
    exists w', (set_validating false f1).
    unfold bind, ret. rewrite Hv.
    split; [reflexivity|]. rewrite Hheap, lookup_insert_eq.
    repeat split; assumption.
  - exists w1, f1. split; [reflexivity|].
    split; [apply Hb1|]. repeat split; try assumption. discriminate.
Qed.

(** ** Void fields, initial values and display *)

(** On a void field the entry points of a value do nothing at all: no
    write, no notification, no validation, and for [onInput] no record
    of the input either.  They return even without a Form. *)
Theorem void_entry_points_do_nothing (w : World) (this : ref) (f : Field)
    (v : jsval) (args : list jsval) :
  heap w !! this = Some f -> void f = true ->
  onInput args this w = (Ok tt, w) /\
  setValue v this w = (Ok tt, w) /\
  setInitialValue v this w = (Ok tt, w).
Proof.
  intros Hheap Hvoid. repeat split; field_exec; reflexivity.
Qed.

(** On a bound field that is not void, [setInitialValue(i)] stores [i] in
    the initialValues tree and leaves the values tree and the field as
    they are; the [value] getter reads [i] then only if the field is
    unmodified and holds no valid value, and the stored value
    otherwise. *)
Theorem initial_value_shows_through_fallback (w : World) (this : ref)
    (f : Field) (p : FormPath) (i : jsval) :
  bound w this f p -> void f = false ->
  exists w',
    setInitialValue i this w = (Ok tt, w') /\
    heap w' = heap w /\
    Form.values (world_form w') = Form.values (world_form w) /\
    Form.getInitialValuesIn p (world_form w') = i /\
    value this w' =
      (Ok (if modified f || isValid (Form.getValuesIn p (world_form w))
           then Form.getValuesIn p (world_form w)
           else i), w').
Proof.
  intros Hb Hvoid. pose proof Hb as Hb'. unbind Hb'.
  eexists. split; [field_exec; reflexivity|]. simpl.
  split; [reflexivity|]. split; [reflexivity|].
  unfold Form.getInitialValuesIn. simpl. rewrite getIn_setIn.
  split; [reflexivity|].
  erewrite value_run by (repeat split; eassumption).
  unfold value_of, Form.getValuesIn, Form.getInitialValuesIn. simpl.
  rewrite getIn_setIn.
  destruct (modified f); simpl; [reflexivity|].
  destruct (isValid _); reflexivity.
Qed.

(** The stash of [setDisplay] is restored by a direct step from "none" to
    "visibility" only.  Through "hidden" the stored value stays cleared
    and the stash stays; after a second "none" the stash holds what the
    cleared field read, so that, on a modified field, undefined is what
    "visibility" restores. *)
Theorem display_restore_needs_a_direct_step (w : World) (this : ref)
    (f : Field) (p : FormPath) :
  bound w this f p -> void f = false ->
  (exists w' f',
     (setDisplay none this;; setDisplay hidden this;;
      setDisplay visibility this) w = (Ok tt, w') /\
     heap w' !! this = Some f' /\
     display f' = Some visibility /\
     recycledValue f' = value_of (world_form w) f p /\
     Form.getValuesIn p (world_form w') = JUndefined) /\
  (modified f = true ->
   exists w' f',
     (setDisplay none this;; setDisplay none this;;
      setDisplay visibility this) w = (Ok tt, w') /\
     heap w' !! this = Some f' /\
     display f' = Some visibility /\
     Form.getValuesIn p (world_form w') = JUndefined /\
     value this w' = (Ok JUndefined, w')).
Proof.
  intros Hb Hvoid. unbind Hb. split.
  - unfold value_of.
    destruct (modified f) eqn:Hmod;
      [|destruct (isValid (Form.getValuesIn p (world_form w))) eqn:Hvalid].
    all: eexists; eexists.
    all: split;
      [repeat (progress (field_exec;
         unfold Form.getValuesIn in *; simpl; rewrite ?Hvalid));
       reflexivity|].
    all: simpl; rewrite lookup_insert_eq.
    all: split; [reflexivity|]. all: split; [reflexivity|].
    all: split; [simpl; apply toJS_id|].
    all: unfold Form.getValuesIn; simpl; apply getIn_setIn.
  - intros Hmod. eexists. eexists.
    split;
      [repeat (progress (field_exec;
         unfold Form.getValuesIn in *; simpl; rewrite ?getIn_setIn));
       reflexivity|].
    simpl. rewrite lookup_insert_eq.
    split; [reflexivity|]. split; [reflexivity|].
    unfold Form.getValuesIn. simpl. rewrite getIn_setIn.
    split; [reflexivity|].
    field_exec. unfold Form.getValuesIn. simpl. rewrite getIn_setIn.
    reflexivity.
Qed.

(** ** Focus, blur and the slots *)

(** On any field object [onFocus] and [onBlur] return, a field without a
    Form included: the validation they start is not awaited.  After
    [onFocus] the field is active and visited; after [onBlur] it is not
    active and as visited as it was.  [onInit] and [onMount], which
    notify the Form themselves, throw on a field without a Form. *)
Theorem focus_and_blur_always_return (w : World) (this : ref) (f : Field) :
  heap w !! this = Some f ->
  (exists w' f',
     onFocus this w = (Ok tt, w') /\ heap w' !! this = Some f' /\
     active f' = true /\ visited f' = true /\ validating f' = true) /\
  (exists w' f',
     onBlur this w = (Ok tt, w') /\ heap w' !! this = Some f' /\
     active f' = false /\ visited f' = visited f /\ validating f' = true) /\
  (form f = None ->
   fst (onInit this w) = Err TypeError /\
   fst (onMount this w) = Err TypeError).
Proof.
  intros Hheap. split; [|split].
  - destruct (form f) as [[]|] eqn:Hform;
      [destruct (path f) as [p|] eqn:Hpath;
       [destruct (modified f) eqn:Hmod;
        [|destruct (isValid (Form.getValuesIn p (world_form w))) eqn:Hv]|]|].
    all: eexists; eexists.
    all: split;
      [repeat (progress (field_exec;
         unfold Form.getValuesIn, Form.notify in *; simpl; rewrite ?Hv));
       reflexivity|].
    all: simpl; rewrite lookup_insert_eq.
    all: repeat split.
  - destruct (form f) as [[]|] eqn:Hform;
      [destruct (path f) as [p|] eqn:Hpath;
       [destruct (modified f) eqn:Hmod;
        [|destruct (isValid (Form.getValuesIn p (world_form w))) eqn:Hv]|]|].
    all: eexists; eexists.
    all: split;
      [repeat (progress (field_exec;
         unfold Form.getValuesIn, Form.notify in *; simpl; rewrite ?Hv));
       reflexivity|].
    all: simpl; rewrite lookup_insert_eq.
    all: repeat split.
  - intros Hform. split; field_exec; reflexivity.
Qed.

Section Merge.

(** [Object.assign] on a source whose keys are distinct: a key of the
    source gets the value of the source, any other key keeps the value
    of the target. *)
Lemma obj_assign_get (source : obj) : forall (target : obj) (k : string),
  NoDup (map fst source) ->
  obj_get k (obj_assign target source) =
    match obj_get k source with
    | Some v => Some v
    | None => obj_get k target
    end.
Proof.
  unfold obj_assign.
  induction source as [|[k0 v0] source IH]; intros target k Hnd; simpl.
  - reflexivity.
  - apply NoDup_cons in Hnd as [Hk0 Hnd].
    rewrite IH by exact Hnd.
    destruct (String.eqb k k0) eqn:E.
    + apply String.eqb_eq in E. subst k0.
      assert (Hnone : obj_get k source = None).
      { clear -Hk0. induction source as [|[k1 v1] source IH]; simpl.
        - reflexivity.
        - destruct (String.eqb k k1) eqn:E1.
          + apply String.eqb_eq in E1. subst k1.
            exfalso. apply Hk0. simpl. left.
          + apply IH. intros Hin. apply Hk0. simpl. right. exact Hin. }
      rewrite Hnone. apply obj_get_set.
    + destruct (obj_get k source); [reflexivity|].
      apply obj_get_set_ne. intros ->. rewrite String.eqb_refl in E.
      discriminate E.
Qed.

End Merge.

(** [setComponent] writes only the positions it is given and leaves the
    decorator alone.  Once it has put a props object at position 1,
    [setComponentProps] returns and stores a shallow merge: each key of
    the source, whose keys are distinct, has the value of the source, and
    every other key the value it had. *)
Theorem setComponent_then_props_merges (w : World) (this : ref) (f : Field)
    (c : option string) (target source : obj) :
  heap w !! this = Some f -> NoDup (map fst source) ->
  exists w' f' merged,
    (setComponent c (Some target) this;;
     setComponentProps (Some source) this) w = (Ok tt, w') /\
    heap w' !! this = Some f' /\
    decorator f' = decorator f /\
    handle (component f') = spread_opt (handle (component f)) c /\
    slot_props (component f') = Some merged /\
    forall k,
      obj_get k merged =
        match obj_get k source with
        | Some v => Some v
        | None => obj_get k target
        end.
Proof.
  intros Hheap Hnd. eexists. eexists. eexists.
  split; [field_exec; reflexivity|]. simpl. rewrite lookup_insert_eq.
  split; [reflexivity|]. split; [reflexivity|].
  split; [reflexivity|]. split; [reflexivity|].
  intros k. apply obj_assign_get. exact Hnd.
Qed.

(** ** The further properties at concrete fields *)

Lemma bound_user_name :
  bound world_user_name 0 (field_at user_name props_Al) user_name.
Proof. repeat split. Defined.


Lemma registry_never_grows_witness :
  Forall (fun c : ref * Operation => forall fuel, snd c <> OnUnmount fuel)
    [(0, OnInput [JStr "Bob"]); (0, Reset reset_plain [])] /\
  same_registry world_user_name
    (run [(0, OnInput [JStr "Bob"]); (0, Reset reset_plain [])]
       world_user_name).
Proof.
  assert (H : Forall
                (fun c : ref * Operation =>
                   forall fuel, snd c <> OnUnmount fuel)
                [(0, OnInput [JStr "Bob"]); (0, Reset reset_plain [])]).
  { repeat constructor; simpl; intros fuel; discriminate. }
  split; [exact H|].
  exact (proj2 (registry_never_grows _ world_user_name) H).
Defined.

Lemma form_modified_is_never_lowered_witness :
  Form.modified
    (world_form (snd (onInput [JStr "Bob"] 0 world_user_name))) = true /\
  Form.modified
    (world_form
       (run [(0, Reset reset_plain []); (0, SetValue JUndefined)]
          (snd (onInput [JStr "Bob"] 0 world_user_name)))) = true.
Proof.
  assert (H : Form.modified
                (world_form (snd (onInput [JStr "Bob"] 0 world_user_name)))
              = true) by reflexivity.
  split; [exact H|].
  exact (form_modified_is_never_lowered _ _ H).
Defined.

Lemma mount_exclusive_user_name : mount_exclusive world_user_name.
Proof.
  intros r f Hr. unfold world_user_name, single_field_world in Hr.
  simpl in Hr. apply lookup_singleton_Some in Hr as [_ <-]. reflexivity.
Defined.

Lemma mounted_excludes_unmounted_witness :
  mount_exclusive world_user_name /\
  mount_exclusive
    (run [(0, OnMount); (0, OnUnmount 3); (0, OnMount)] world_user_name).
Proof.
  split; [exact mount_exclusive_user_name|].
  exact (mounted_excludes_unmounted _ _ mount_exclusive_user_name).
Defined.

Lemma trees_have_few_writers_witness :
  Forall (fun c : ref * Operation => writes_values (snd c) = false)
    [(0, OnFocus); (0, SetInitialValue (JStr "A")); (0, Validate None [])] /\
  same_values world_user_name
    (run [(0, OnFocus); (0, SetInitialValue (JStr "A"));
          (0, Validate None [])] world_user_name) /\
  Forall (fun c : ref * Operation => writes_initialValues (snd c) = false)
    [(0, OnInput [JStr "Bob"]); (0, Reset reset_plain [])] /\
  same_initialValues world_user_name
    (run [(0, OnInput [JStr "Bob"]); (0, Reset reset_plain [])]
       world_user_name).
Proof.
  assert (Hv : Forall
                 (fun c : ref * Operation => writes_values (snd c) = false)
                 [(0, OnFocus); (0, SetInitialValue (JStr "A"));
                  (0, Validate None [])]).
  { repeat constructor. }
  assert (Hi : Forall
                 (fun c : ref * Operation =>
                    writes_initialValues (snd c) = false)
                 [(0, OnInput [JStr "Bob"]); (0, Reset reset_plain [])]).
  { repeat constructor. }
  split; [exact Hv|].
  split; [exact (proj1 (trees_have_few_writers _ world_user_name) Hv)|].
  split; [exact Hi|].
  exact (proj2 (trees_have_few_writers _ world_user_name) Hi).
Defined.

Lemma is_void_a : is_void 0 world_void_a.
Proof.
  intros f Hf. unfold world_void_a, single_field_world in Hf.
  simpl in Hf. apply lookup_singleton_Some in Hf as [_ <-]. reflexivity.
Defined.

Lemma void_field_never_writes_trees_witness :
  Forall (fun c : ref * Operation =>
            fst c = 0 /\ is_initialize (snd c) = false)
    [(0, OnInput [JStr "y"]); (0, SetDisplay visibility);
     (0, Reset reset_force_validate [])] /\
  is_void 0 world_void_a /\
  same_trees world_void_a
    (run [(0, OnInput [JStr "y"]); (0, SetDisplay visibility);
          (0, Reset reset_force_validate [])] world_void_a).
Proof.
  assert (H : Forall
                (fun c : ref * Operation =>
                   fst c = 0 /\ is_initialize (snd c) = false)
                [(0, OnInput [JStr "y"]); (0, SetDisplay visibility);
                 (0, Reset reset_force_validate [])]).
  { repeat constructor. }
  split; [exact H|]. split; [exact is_void_a|].
  exact (proj2 (void_field_never_writes_trees 0 _ world_void_a H is_void_a)).
Defined.

Lemma index_is_last_numeric_segment_witness :
  heap world_items !! 2
    = Some (field_at [Key "items"; Index 1] (props_display_only None)) /\
  index 2 world_items = (Ok (Some 1), world_items) /\
  index 0 world_user_name = (Ok None, world_user_name).
Proof.
  split; [reflexivity|]. split.
  - apply (proj1 (index_is_last_numeric_segment world_items 2 _
                    [Key "items"; Index 1] eq_refl eq_refl)
             [Key "items"] 1 []); [reflexivity | constructor].
  - apply (proj2 (index_is_last_numeric_segment world_user_name 0 _
                    user_name eq_refl eq_refl)).
    repeat constructor.
Defined.

Lemma child_and_parent_round_trip_witness :
  bound world_abc 1 (field_at [Key "a"] (props_display_only (Some none)))
    [Key "a"] /\
  getChildren (Key "b") 1 world_abc = (Ok (Some 2), world_abc) /\
  parent 0 2 world_abc = (Ok (Some 1), world_abc) /\
  key 2 world_abc = (Ok (Some (Key "b")), world_abc).
Proof.
  assert (Hb : bound world_abc 1
                 (field_at [Key "a"] (props_display_only (Some none)))
                 [Key "a"]).
  { repeat split. }
  split; [exact Hb|].
  destruct (child_and_parent_round_trip world_abc 1 2 _
              (field_at [Key "a"; Key "b"] (props_display_only None))
              [Key "a"] (Key "b") Hb)
    as (Hc & Hp & Hk); [repeat split | reflexivity | reflexivity |].
  split; [exact Hc|]. split; [exact (Hp 0) | exact Hk].
Defined.

Lemma siblings_find_each_other_witness :
  bound world_siblings 1
    (field_at [Key "user"; Key "name"] (props_display_only None))
    [Key "user"; Key "name"] /\
  getSibling "age" 1 world_siblings = (Ok (Some 2), world_siblings) /\
  getSibling "name" 2 world_siblings = (Ok (Some 1), world_siblings).
Proof.
  assert (Hb : bound world_siblings 1
                 (field_at [Key "user"; Key "name"] (props_display_only None))
                 [Key "user"; Key "name"]).
  { repeat split. }
  split; [exact Hb|].
  destruct (siblings_find_each_other world_siblings 1 2 _
              (field_at [Key "user"; Key "age"] (props_display_only None))
              [Key "user"] "name" "age" Hb)
    as (H12 & H21 & _);
    [repeat split | discriminate | discriminate | reflexivity | reflexivity |].
  split; [exact H12 | exact H21].
Defined.

Lemma lookups_before_a_path_is_assigned_witness :
  heap world_unbound !! 0 = Some (initialized_from no_props blank) /\
  key 0 world_unbound = (Ok None, world_unbound) /\
  getSibling "name" 0 world_unbound = (Ok None, world_unbound) /\
  getChildren (Key "name") 0 world_unbound = (Err TypeError, world_unbound).
Proof.
  split; [reflexivity|].
  destruct (lookups_before_a_path_is_assigned world_unbound 0 _
              eq_refl eq_refl)
    as (Hk & _ & Hs & Hc & _).
  split; [exact Hk|]. split; [exact (Hs "name") | exact (Hc (Key "name"))].
Defined.

Lemma bound_items_1 :
  bound world_items 2
    (field_at [Key "items"; Index 1] (props_display_only None))
    [Key "items"; Index 1].
Proof. repeat split. Defined.

Lemma array_is_nearest_array_valued_ancestor_witness :
  bound world_items 2
    (field_at [Key "items"; Index 1] (props_display_only None))
    [Key "items"; Index 1] /\
  array_valued world_items "items" 1 /\
  array 1 2 world_items = (Ok (Some 1), world_items).
Proof.
  assert (Ha : array_valued world_items "items" 1).
  { split; [reflexivity|].
    exists (JArr [JStr "a"; JStr "b"; JStr "c"]). split; reflexivity. }
  split; [exact bound_items_1|]. split; [exact Ha|].
  apply (proj1 (array_is_nearest_array_valued_ancestor world_items 2 _ _ 1
                  bound_items_1) 0 1).
  - intros j Hj. lia.
  - exact Ha.
  - lia.
Defined.

Lemma getArraySibling_is_relative_to_array_witness :
  bound world_items 2
    (field_at [Key "items"; Index 1] (props_display_only None))
    [Key "items"; Index 1] /\
  array_valued world_items "items" 1 /\
  getArraySibling 1 2 None 2 world_items = (Ok (Some 3), world_items) /\
  getArraySibling 1 7 None 2 world_items = (Ok None, world_items).
Proof.
  assert (Ha : array_valued world_items "items" 1).
  { split; [reflexivity|].
    exists (JArr [JStr "a"; JStr "b"; JStr "c"]). split; reflexivity. }
  split; [exact bound_items_1|]. split; [exact Ha|]. split.
  - rewrite (getArraySibling_is_relative_to_array world_items 2 1 _
               (field_at [Key "items"] (props_display_only None))
               _ [Key "items"] 1 0 2 None bound_items_1);
      [reflexivity | intros j Hj; lia | exact Ha | lia | reflexivity
      | reflexivity | discriminate].
  - rewrite (getArraySibling_is_relative_to_array world_items 2 1 _
               (field_at [Key "items"] (props_display_only None))
               _ [Key "items"] 1 0 7 None bound_items_1);
      [reflexivity | intros j Hj; lia | exact Ha | lia | reflexivity
      | reflexivity | discriminate].
Defined.

Lemma validation_is_bracketed_witness :
  bound world_user_name 0 (field_at user_name props_Al) user_name /\
  exists w',
    validate (Some "onBlur") [] 0 world_user_name
      = (Ok (validated []), w') /\
    Form.log (world_form w') =
      [ Notify ON_FIELD_VALIDATE_START (FieldPayload 0);
        EngineValidate (JStr "Al") NoValidator (Some "onBlur");
        Notify ON_FIELD_VALIDATE_END (FieldPayload 0) ].
Proof.
  split; [exact bound_user_name|].
  destruct (validation_is_bracketed world_user_name 0 _ _ (Some "onBlur") []
              bound_user_name)
    as (_ & w' & f' & Hrun & _ & _ & Hlog).
  exists w'. split; [exact Hrun | exact Hlog].
Defined.

Lemma silent_validation_keeps_feedback_witness :
  bound world_user_name 0 (field_at user_name props_Al) user_name /\
  messages_of is_error [ {| type := "info"; message := "seen" |} ] = [] /\
  messages_of is_warning_or_success
    [ {| type := "info"; message := "seen" |} ] = [] /\
  Form.feedback
    (world_form
       (snd (validate None [ {| type := "info"; message := "seen" |} ] 0
               world_user_name)))
  = Form.feedback (world_form world_user_name).
Proof.
  split; [exact bound_user_name|].
  split; [reflexivity|]. split; [reflexivity|].
  exact (silent_validation_keeps_feedback world_user_name 0 _ _ None
           [ {| type := "info"; message := "seen" |} ]
           bound_user_name eq_refl eq_refl).
Defined.

Lemma reset_reads_initial_value_witness :
  bound world_user_name 0 (field_at user_name props_Al) user_name /\
  void (field_at user_name props_Al) = false /\
  exists w',
    reset_action reset_force_validate 0 world_user_name = (Ok tt, w') /\
    Form.getValuesIn user_name (world_form w') = JUndefined /\
    value 0 w' = (Ok (JStr "Alice"), w').
Proof.
  split; [exact bound_user_name|]. split; [reflexivity|].
  destruct (reset_reads_initial_value world_user_name 0 _ _
              reset_force_validate bound_user_name eq_refl)
    as (w' & f' & Hrun & _ & _ & _ & Hval & Hinit & Hvalue).
  exists w'. split; [exact Hrun|]. split; [exact Hval|].
  rewrite Hvalue, Hinit. reflexivity.
Defined.

Lemma reset_returns_witness :
  bound world_user_name 0 (field_at user_name props_Al) user_name /\
  fst (reset reset_force_validate sample_results 0 world_user_name)
    = Ok (Some (validated sample_results)) /\
  fst (reset reset_plain sample_results 0 world_user_name) = Ok None.
Proof.
  split; [exact bound_user_name|]. split.
  - destruct (reset_returns world_user_name 0 _ _ reset_force_validate
                sample_results bound_user_name) as (w' & f' & Hrun & _).
    rewrite Hrun. reflexivity.
  - destruct (reset_returns world_user_name 0 _ _ reset_plain
                sample_results bound_user_name) as (w' & f' & Hrun & _).
    rewrite Hrun. reflexivity.
Defined.

Lemma void_entry_points_do_nothing_witness :
  heap world_void_a !! 0 = Some (field_at [Key "a"] props_void_none) /\
  void (field_at [Key "a"] props_void_none) = true /\
  onInput [JStr "y"] 0 world_void_a = (Ok tt, world_void_a).
Proof.
  split; [reflexivity|]. split; [reflexivity|].
  exact (proj1 (void_entry_points_do_nothing world_void_a 0 _ JNull
                  [JStr "y"] eq_refl eq_refl)).
Defined.

Lemma bound_name :
  bound world_name 0 (field_at [Key "name"] props_Alice) [Key "name"].
Proof. repeat split. Defined.

Lemma initial_value_shows_through_fallback_witness :
  bound world_name 0 (field_at [Key "name"] props_Alice) [Key "name"] /\
  void (field_at [Key "name"] props_Alice) = false /\
  (exists w',
     setInitialValue (JStr "Ann") 0 world_name = (Ok tt, w') /\
     value 0 w' = (Ok (JStr "Ann"), w')) /\
  (exists w',
     setInitialValue (JStr "Ann") 0 world_user_name = (Ok tt, w') /\
     value 0 w' = (Ok (JStr "Al"), w')).
Proof.
  split; [exact bound_name|]. split; [reflexivity|]. split.
  - destruct (initial_value_shows_through_fallback world_name 0 _ _
                (JStr "Ann") bound_name eq_refl)
      as (w' & Hrun & _ & _ & _ & Hvalue).
    exists w'. split; [exact Hrun | exact Hvalue].
  - destruct (initial_value_shows_through_fallback world_user_name 0 _ _
                (JStr "Ann") bound_user_name eq_refl)
      as (w' & Hrun & _ & _ & _ & Hvalue).
    exists w'. split; [exact Hrun | exact Hvalue].
Defined.

Lemma display_restore_needs_a_direct_step_witness :
  bound world_user_name 0 (field_at user_name props_Al) user_name /\
  void (field_at user_name props_Al) = false /\
  exists w' f',
    (setDisplay none 0;; setDisplay hidden 0;; setDisplay visibility 0)
      world_user_name = (Ok tt, w') /\
    heap w' !! 0 = Some f' /\
    recycledValue f' = JStr "Al" /\
    Form.getValuesIn user_name (world_form w') = JUndefined.
Proof.
  split; [exact bound_user_name|]. split; [reflexivity|].
  destruct (display_restore_needs_a_direct_step world_user_name 0 _ _
              bound_user_name eq_refl)
    as ((w' & f' & Hrun & Hf' & _ & Hstash & Hval) & _).
  exists w', f'. split; [exact Hrun|]. split; [exact Hf'|].
  split; [exact Hstash | exact Hval].
Defined.

Lemma focus_and_blur_always_return_witness :
  heap world_unbound !! 0 = Some (initialized_from no_props blank) /\
  fst (onFocus 0 world_unbound) = Ok tt /\
  fst (onInit 0 world_unbound) = Err TypeError.
Proof.
  split; [reflexivity|].
  destruct (focus_and_blur_always_return world_unbound 0 _ eq_refl)
    as ((w' & f' & Hrun & _) & _ & Hinit).
  split; [rewrite Hrun; reflexivity | exact (proj1 (Hinit eq_refl))].
Defined.

Lemma setComponent_then_props_merges_witness :
  heap world_user_name !! 0 = Some (field_at user_name props_Al) /\
  NoDup (map fst [("size", JStr "large"); ("rows", JNum 3)]) /\
  exists w' f' merged,
    (setComponent (Some "Input") (Some [("size", JStr "small")]) 0;;
     setComponentProps (Some [("size", JStr "large"); ("rows", JNum 3)]) 0)
      world_user_name = (Ok tt, w') /\
    heap w' !! 0 = Some f' /\
    slot_props (component f') = Some merged /\
    obj_get "size" merged = Some (JStr "large").
Proof.
  assert (Hnd : NoDup (map fst [("size", JStr "large"); ("rows", JNum 3)])).
  { apply NoDup_ListNoDup. repeat constructor; simpl; intuition discriminate. }
  split; [reflexivity|]. split; [exact Hnd|].
  destruct (setComponent_then_props_merges world_user_name 0 _
              (Some "Input") [("size", JStr "small")]
              [("size", JStr "large"); ("rows", JNum 3)] eq_refl Hnd)
    as (w' & f' & merged & Hrun & Hf' & _ & _ & Hprops & Hget).
  exists w', f', merged. split; [exact Hrun|]. split; [exact Hf'|].
  split; [exact Hprops|]. rewrite Hget. reflexivity.
Defined.
